(** * Sentence-Simulator: the word-level back-off Markov model of
    [backend/markov.py] ([ShakespeareMarkov]).

    The development follows the Python class method by method:
    - the per-word cleaning loop and the vocabulary of [load_and_process],
    - the sliding-window table of [build_matrix],
    - the back-off predictor [next_word],
    - the sentence loop and the detokenizer of [generate_sentence].

    Conventions of the embedding.
    - A Python [str] is a [string]; the character tests ([isupper],
      [isdigit], [lower]) are the ones Python applies to code points below
      128, every other code point counting as uncased and non-numeric.
    - A Python [int] is a [Z]; a length, a count or a position is a [nat].
    - A [dict] is a [gmap]; [collections.Counter], whose iteration order
      (first insertion) decides ties, is an association list in that order.
    - An exception is a value of [py_error]: a method that can raise
      returns a [result].
    - numpy's 2-D integer array is a list of rows together with its number
      of columns; a float weight is an exact rational ([Q]).
    - [np.random] is a stream of uniform draws in [0,1), one per call of
      [np.random.choice], threaded through the calls as explicit state. *)

From Stdlib Require Import ZArith QArith Qround String Ascii List Lia.
From stdpp Require Import base gmap strings list sorting.

(** ** Exceptions and the monad of the random generator *)

Inductive py_error : Type :=
  | TypeError      (* subscripting [None] *)
  | ValueError     (* empty population, window larger than the array, shapes that do not broadcast *)
  | IndexError     (* column index out of bounds *)
  | KeyError.      (* missing dictionary key *)

Inductive result (A : Type) : Type :=
  | Ok (a : A)
  | Raise (e : py_error).
Arguments Ok {A} a.
Arguments Raise {A} e.

Definition is_ok {A} (r : result A) : bool :=
  match r with Ok _ => true | Raise _ => false end.

Definition bind_result {A B} (r : result A) (k : A -> result B) : result B :=
  match r with
  | Ok a => k a
  | Raise e => Raise e
  end.

(** The generator: [draws n] is the uniform number handed out by the
    [n]-th call, [pos] counts the calls made so far. *)
Record rng_state : Type := mk_rng { draws : nat -> Q; pos : nat }.

Definition next_draw (g : rng_state) : Q * rng_state :=
  (draws g (pos g), mk_rng (draws g) (S (pos g))).

(** Every draw lies in [0,1), as [random_sample] guarantees. *)
Definition uniform_draws (g : rng_state) : Prop :=
  forall n, (0 <= draws g n)%Q /\ (draws g n < 1)%Q.

(** Computations that may draw random numbers and may raise. *)
Definition rand (A : Type) : Type := rng_state -> result (A * rng_state).

Definition ret {A} (a : A) : rand A := fun g => Ok (a, g).

Definition throw {A} (e : py_error) : rand A := fun _ => Raise e.

Definition bind {A B} (m : rand A) (k : A -> rand B) : rand B :=
  fun g => match m g with
           | Ok (a, g') => k a g'
           | Raise e => Raise e
           end.

Definition lift {A} (r : result A) : rand A :=
  fun g => match r with Ok a => Ok (a, g) | Raise e => Raise e end.

Declare Scope rand_scope.
Delimit Scope rand_scope with rand.
Notation "'let*' x ':=' m 'in' k" := (bind m (fun x => k))
  (at level 10, x name, m at level 100, k at level 200) : rand_scope.

(** ** Python strings *)

Definition is_upper_char (c : ascii) : bool :=
  (65 <=? nat_of_ascii c) && (nat_of_ascii c <=? 90).

Definition is_lower_char (c : ascii) : bool :=
  (97 <=? nat_of_ascii c) && (nat_of_ascii c <=? 122).

Definition is_digit_char (c : ascii) : bool :=
  (48 <=? nat_of_ascii c) && (nat_of_ascii c <=? 57).

Definition lower_char (c : ascii) : ascii :=
  if is_upper_char c then ascii_of_nat (nat_of_ascii c + 32) else c.

Fixpoint str_all (p : ascii -> bool) (s : string) : bool :=
  match s with
  | EmptyString => true
  | String c s' => p c && str_all p s'
  end.

Fixpoint str_any (p : ascii -> bool) (s : string) : bool :=
  match s with
  | EmptyString => false
  | String c s' => p c || str_any p s'
  end.

(** [str.isupper]: no cased character is lower-case and there is at least
    one cased character. *)
Definition isupper (s : string) : bool :=
  str_all (fun c => negb (is_lower_char c)) s && str_any is_upper_char s.

(** [str.isdigit]: non-empty and made of digits only. *)
Definition isdigit (s : string) : bool :=
  match s with
  | EmptyString => false
  | _ => str_all is_digit_char s
  end.

(** [str.lower] *)
Fixpoint lower (s : string) : string :=
  match s with
  | EmptyString => EmptyString
  | String c s' => String (lower_char c) (lower s')
  end.

(** [re.sub(r'[_-]', '', w)] *)
Fixpoint strip_marks (s : string) : string :=
  match s with
  | EmptyString => EmptyString
  | String c s' =>
      if (Ascii.eqb c "_" || Ascii.eqb c "-")%bool then strip_marks s'
      else String c (strip_marks s')
  end.

(** [sep.join(l)] *)
Fixpoint join (sep : string) (l : list string) : string :=
  match l with
  | [] => EmptyString
  | [x] => x
  | x :: l' => x ++ sep ++ join sep l'
  end.

(** [s.replace(old, new)] for a non-empty [old]: the occurrences of [old]
    are found from left to right without overlap. [skip] counts the
    characters of the current occurrence still to be passed over. *)
Fixpoint replace_from (old new : string) (skip : nat) (s : string) : string :=
  match s with
  | EmptyString => EmptyString
  | String c s' =>
      match skip with
      | S k => replace_from old new k s'
      | O =>
          if String.prefix old s
          then new ++ replace_from old new (String.length old - 1) s'
          else String c (replace_from old new 0 s')
      end
  end.

Definition replace (old new s : string) : string := replace_from old new 0 s.

(** ** Python lists and numpy arrays *)

(** A slice bound [x] of a sequence of length [len]: a negative bound
    counts from the end, and every bound is clamped to [0 .. len]. *)
Definition slice_bound (len : nat) (x : Z) : nat :=
  if (x <? 0)%Z then Z.to_nat (Z.max (x + Z.of_nat len) 0)
  else Nat.min (Z.to_nat x) len.

(** [l[lo:hi]] *)
Definition py_slice {A} (lo hi : Z) (l : list A) : list A :=
  let a := slice_bound (length l) lo in
  let b := slice_bound (length l) hi in
  take (b - a) (drop a l).

(** [l[lo:]] *)
Definition py_slice_from {A} (lo : Z) (l : list A) : list A :=
  drop (slice_bound (length l) lo) l.

(** [range(n, 0, -1)] *)
Definition range_down (n : nat) : list nat := rev (seq 1 n).

(** A 2-D integer array of shape [(length arows, acols)]. *)
Record ndarray : Type := mk_ndarray { arows : list (list Z); acols : nat }.

(** [sliding_window_view(x, w)] on a 1-D array: one row per window
    position, [len(x) - w + 1] of them; a window larger than the array is
    refused. *)
Definition sliding_window_view (x : list Z) (w : nat) : result ndarray :=
  if length x <? w then Raise ValueError
  else Ok (mk_ndarray (map (fun s => take w (drop s x)) (seq 0 (length x - w + 1))) w).

(** [a[:, j]]: one column, [j] possibly negative; out of bounds raises. *)
Definition column (a : ndarray) (j : Z) : result (list Z) :=
  let j' := if (j <? 0)%Z then (j + Z.of_nat (acols a))%Z else j in
  if ((j' <? 0) || (Z.of_nat (acols a) <=? j'))%Z then Raise IndexError
  else Ok (map (fun r => nth (Z.to_nat j') r 0%Z) (arows a)).

(** [a[:, lo:hi]] *)
Definition column_slice (a : ndarray) (lo hi : Z) : ndarray :=
  mk_ndarray (map (py_slice lo hi) (arows a))
             (slice_bound (acols a) hi - slice_bound (acols a) lo).

(** [a[mask]]: the rows whose mask entry is true. *)
Fixpoint select {A} (mask : list bool) (l : list A) : list A :=
  match mask, l with
  | b :: mask', x :: l' => if b then x :: select mask' l' else select mask' l'
  | _, _ => []
  end.

(** [np.all(a == key, axis=1)] for a Python list [key]: the shapes
    [(r, c)] and [(k,)] broadcast when [c = k], or [k = 1], or [c = 1];
    any other pair of shapes is an error. *)
Definition rows_equal (a : ndarray) (key : list Z) : result (list bool) :=
  if (acols a =? length key)%nat then
    Ok (map (fun r => bool_decide (r = key)) (arows a))
  else if (length key =? 1)%nat then
    Ok (map (fun r => forallb (fun x => bool_decide (x = hd 0%Z key)) r) (arows a))
  else if (acols a =? 1)%nat then
    Ok (map (fun r => forallb (fun k => bool_decide (hd 0%Z r = k)) key) (arows a))
  else Raise ValueError.

(** [np.any(mask)] *)
Definition any (mask : list bool) : bool := existsb id mask.

Definition Qsum (l : list Q) : Q := fold_right Qplus 0%Q l.

(** [np.cumsum] *)
Fixpoint cumsum_from (acc : Q) (l : list Q) : list Q :=
  match l with
  | [] => []
  | x :: l' => (acc + x)%Q :: cumsum_from (acc + x)%Q l'
  end.

(** [cdf.searchsorted(u, side='right')] on a non-decreasing [cdf]: the
    number of entries that are at most [u]. *)
Definition searchsorted_right (cdf : list Q) (u : Q) : nat :=
  length (filter (fun c => Qle_bool c u) cdf).

(** [np.random.choice(a)]: a uniformly drawn position of [a]; an empty
    population is refused. *)
Definition random_choice (a : list Z) : rand Z :=
  fun g =>
    match a with
    | [] => Raise ValueError
    | _ =>
        let (u, g') := next_draw g in
        let idx := Z.to_nat (Qfloor (u * inject_Z (Z.of_nat (length a)))) in
        match a !! idx with
        | Some x => Ok (x, g')
        | None => Raise IndexError
        end
    end.

(** [np.random.choice(a, p=p)]: after the checks on [p], the draw is
    located in the normalised cumulative distribution. *)
Definition random_choice_p (a : list Z) (p : list Q) : rand Z :=
  fun g =>
    match a with
    | [] => Raise ValueError
    | _ =>
        if negb (length a =? length p)%nat then Raise ValueError
        else if negb (forallb (fun x => Qle_bool 0 x) p) then Raise ValueError
        else if negb (Qeq_bool (Qsum p) 1) then Raise ValueError
        else
          let (u, g') := next_draw g in
          let cdf := cumsum_from 0 p in
          let cdf := map (fun c => (c / List.last cdf 0)%Q) cdf in
          match a !! searchsorted_right cdf u with
          | Some x => Ok (x, g')
          | None => Raise IndexError
          end
    end.

(** ** The model object *)

Record ShakespeareMarkov : Type := mk_model {
  mlag : nat;
  top_k : Z;
  vocab : list string;
  word_to_id : gmap string Z;
  id_to_word : gmap Z string;
  M : option ndarray;
  tokens : list Z
}.

(** [__init__]: everything empty, no table yet. *)
Definition init (mlag : nat) (top_k : Z) : ShakespeareMarkov :=
  mk_model mlag top_k [] ∅ ∅ None [].

(** ** [load_and_process]: cleaning loop and vocabulary *)

(** One iteration of the loop over [words]. *)
Definition clean_step (cleaned_words : list string) (w : string) : list string :=
  let w := strip_marks w in
  if bool_decide (w = EmptyString) then cleaned_words
  else if isupper w && negb (bool_decide (w ∈ ["I"; "A"]%string)) then cleaned_words
  else if isdigit w then cleaned_words
  else cleaned_words ++ [lower w].

Definition clean_words (words : list string) : list string :=
  fold_left clean_step words [].

(** [Counter]: [c[w] = c.get(w, 0) + 1]; a new key goes to the end. *)
Fixpoint counter_add (w : string) (c : list (string * nat)) : list (string * nat) :=
  match c with
  | [] => [(w, 1)]
  | (k, n) :: c' =>
      if bool_decide (k = w) then (k, S n) :: c' else (k, n) :: counter_add w c'
  end.

Definition Counter (ws : list string) : list (string * nat) :=
  fold_left (fun c w => counter_add w c) ws [].

(** [sorted(items, key=itemgetter(1), reverse=True)]: the sort is stable,
    so an item stays in front of the later items with the same count. *)
Fixpoint insert_by_count (x : string * nat) (l : list (string * nat)) : list (string * nat) :=
  match l with
  | [] => [x]
  | y :: l' => if (snd x <? snd y)%nat then y :: insert_by_count x l' else x :: l
  end.

Definition sorted_by_count (c : list (string * nat)) : list (string * nat) :=
  fold_right insert_by_count [] c.

(** [Counter.most_common(n)] is [heapq.nlargest(n, items, key=count)],
    which is [sorted(...)[:n]] for [n > 0] and the empty list otherwise. *)
Definition most_common (n : Z) (c : list (string * nat)) : list (string * nat) :=
  if (n <=? 0)%Z then [] else take (Z.to_nat n) (sorted_by_count c).

(** [{w: i for i, w in enumerate(vocab)}] and its mirror image; a later
    entry overwrites an earlier one with the same key. *)
Definition enumerate {A} (l : list A) : list (Z * A) :=
  zip (map Z.of_nat (seq 0 (length l))) l.

Definition build_word_to_id (vocab : list string) : gmap string Z :=
  fold_left (fun m iw => <[snd iw := fst iw]> m) (enumerate vocab) ∅.

Definition build_id_to_word (vocab : list string) : gmap Z string :=
  fold_left (fun m iw => <[fst iw := snd iw]> m) (enumerate vocab) ∅.

(** The part of [load_and_process] that follows [text.split()]. *)
Definition load_and_process (self : ShakespeareMarkov) (words : list string)
  : result ShakespeareMarkov :=
  let cleaned_words := clean_words words in
  let counts := Counter cleaned_words in
  let most := most_common (top_k self) counts in
  let vocab := map fst most in
  let w2i := build_word_to_id vocab in
  let i2w := build_id_to_word vocab in
  let tokens := map (fun w => default (-1)%Z (w2i !! w)) cleaned_words in
  Ok (mk_model (mlag self) (top_k self) vocab w2i i2w (M self) tokens).

(** ** [build_matrix] *)

Definition build_matrix (self : ShakespeareMarkov) : result ShakespeareMarkov :=
  let window_size := mlag self + 1 in
  bind_result (sliding_window_view (tokens self) window_size) (fun M_view =>
  bind_result (column M_view (-1)) (fun last =>
  let valid_target := map (fun t => negb (bool_decide (t = (-1)%Z))) last in
  bind_result (column M_view (-2)) (fun prev =>
  let valid_context := map (fun t => negb (bool_decide (t = (-1)%Z))) prev in
  let mask := zip_with andb valid_target valid_context in
  Ok (mk_model (mlag self) (top_k self) (vocab self) (word_to_id self)
               (id_to_word self)
               (Some (mk_ndarray (select mask (arows M_view)) (acols M_view)))
               (tokens self))))).

(** ** [next_word] *)

(** A [for] loop whose body may raise. *)
Fixpoint for_each {A S} (body : S -> A -> result S) (l : list A) (s : S) : result S :=
  match l with
  | [] => Ok s
  | x :: l' => bind_result (body s x) (for_each body l')
  end.

(** [[self.word_to_id.get(k) for k in key_words if k in self.word_to_id]],
    cut down to its last [mlag] entries when it is longer. *)
Definition key_ids_of (self : ShakespeareMarkov) (key_words : list string) : list Z :=
  let key_ids := omap (fun k => word_to_id self !! k) key_words in
  if (mlag self <? length key_ids)%nat
  then py_slice_from (- Z.of_nat (mlag self)) key_ids
  else key_ids.

(** The body of the back-off loop at level [i]; the state is the pair
    [(next_word_candidates, weights)]. *)
Definition backoff_step (self : ShakespeareMarkov) (key_ids : list Z)
    (st : list Z * list Q) (i : nat) : result (list Z * list Q) :=
  let sub_key := py_slice_from (- Z.of_nat i) key_ids in
  match M self with
  | None => Raise TypeError
  | Some m =>
      let context_cols :=
        column_slice m (Z.of_nat (mlag self) - Z.of_nat i) (Z.of_nat (mlag self)) in
      bind_result (rows_equal context_cols sub_key) (fun matches =>
      if any matches then
        bind_result (column m (Z.of_nat (mlag self))) (fun targets =>
        let matched_targets := select matches targets in
        let w_val := (1 / inject_Z (Z.of_nat (length matched_targets)))%Q in
        Ok (fst st ++ matched_targets,
            snd st ++ repeat w_val (length matched_targets)))
      else Ok st)
  end.

Definition backoff_pool (self : ShakespeareMarkov) (key_ids : list Z)
  : result (list Z * list Q) :=
  for_each (backoff_step self key_ids) (range_down (length key_ids)) ([], []).

(** [self.id_to_word[i]] *)
Definition word_of_id (self : ShakespeareMarkov) (i : Z) : result string :=
  match id_to_word self !! i with
  | Some w => Ok w
  | None => Raise KeyError
  end.

Definition valid_tokens (self : ShakespeareMarkov) : list Z :=
  filter (fun t => t <> (-1)%Z) (tokens self).

(** [weights / weights.sum()] *)
Definition normalise (weights : list Q) : list Q :=
  map (fun w => (w / Qsum weights)%Q) weights.

Definition next_word (self : ShakespeareMarkov) (key_words : list string) : rand string :=
  let key_ids := key_ids_of self key_words in
  (let* pool := lift (backoff_pool self key_ids) in
   match fst pool with
   | [] =>
       let* chosen_id := random_choice (valid_tokens self) in
       lift (word_of_id self chosen_id)
   | _ =>
       let probs := normalise (snd pool) in
       let* chosen_id := random_choice_p (fst pool) probs in
       lift (word_of_id self chosen_id)
   end)%rand.

(** ** [generate_sentence] *)

(** A [while] loop run with a bound on the number of tests of its
    condition; [None] says that the bound was reached first. *)
Fixpoint while_loop {S} (fuel : nat) (cond : S -> bool) (body : S -> rand S) (s : S)
  : rand (option S) :=
  match fuel with
  | O => ret None
  | S fuel' =>
      if cond s
      then (let* s' := body s in while_loop fuel' cond body s')%rand
      else ret (Some s)
  end.

(** The variables of the loop: [generated], [current_token], [count]. *)
Record loop_state : Type := mk_loop {
  generated : list string;
  current_token : string;
  count : nat
}.

Definition loop_cond (s : loop_state) : bool :=
  negb (bool_decide (current_token s = "."%string)) && (count s <? 50)%nat.

Definition loop_body (self : ShakespeareMarkov) (s : loop_state) : rand loop_state :=
  (let* next_w := next_word self (generated s) in
   ret (mk_loop (generated s ++ [next_w]) next_w (count s + 1)))%rand.

Definition puncs : list string := [","; "."; ";"; "!"; ":"; "?"]%string.

(** [" ".join(generated)] followed by one [replace] per mark. *)
Definition detokenize (generated : list string) : string :=
  fold_left (fun text p => replace (" " ++ p) p text) puncs (join " " generated).

Definition unknown_start_word : string := "Error: Start word not in vocabulary.".

(** The token list at the exit of the loop, [None] when [fuel] tests of
    the condition did not reach the exit. *)
Definition generate_tokens (fuel : nat) (self : ShakespeareMarkov) (start_word : string)
  : rand (option (list string)) :=
  (let* final := while_loop fuel loop_cond (loop_body self)
                   (mk_loop [start_word] start_word 0) in
   ret (generated <$> final))%rand.

Definition generate_sentence (fuel : nat) (self : ShakespeareMarkov) (start_word : string)
  : rand (option string) :=
  match word_to_id self !! start_word with
  | None => ret (Some unknown_start_word)
  | Some _ =>
      (let* toks := generate_tokens fuel self start_word in
       ret (detokenize <$> toks))%rand
  end.

(** ** Start-up, as [main.py] runs it *)

(** [model = ShakespeareMarkov(...); model.load_and_process();
    model.build_matrix()], on the words of the corpus. *)
Definition load_model (mlag : nat) (top_k : Z) (words : list string)
  : result ShakespeareMarkov :=
  bind_result (load_and_process (init mlag top_k) words) build_matrix.

(** What start-up establishes and every later call relies on. *)
Record well_formed (self : ShakespeareMarkov) : Prop := mk_well_formed {
  wf_order : 1 <= mlag self;
  wf_vocab : NoDup (vocab self);
  wf_word_to_id : forall w z,
    word_to_id self !! w = Some z <-> exists i, vocab self !! i = Some w /\ z = Z.of_nat i;
  wf_id_to_word : forall w z,
    id_to_word self !! z = Some w <-> exists i, vocab self !! i = Some w /\ z = Z.of_nat i;
  wf_tokens : forall t,
    t ∈ tokens self -> t = (-1)%Z \/ is_Some (id_to_word self !! t);
  wf_table : exists m,
    M self = Some m /\ acols m = mlag self + 1 /\
    Forall (fun row => length row = mlag self + 1 /\
                       nth (mlag self) row 0%Z ∈ valid_tokens self) (arows m)
}.

(** What holds of the loop variables of [generate_sentence] at every
    test of the loop condition. *)
Record loop_inv (self : ShakespeareMarkov) (start_word : string) (s : loop_state) : Prop :=
  mk_loop_inv {
  inv_count : count s <= 50;
  inv_length : length (generated s) = count s + 1;
  inv_head : head (generated s) = Some start_word;
  inv_last : exists pre, generated s = pre ++ [current_token s] /\
                         Forall (fun t => t <> "."%string) pre;
  inv_vocab : Forall (fun t => t ∈ vocab self) (generated s)
}.

(** No upper-case letter in the string. *)
Definition no_upper (s : string) : Prop :=
  str_all (fun c => negb (is_upper_char c)) s = true.

(** ** A small corpus

    "Romeo is here . Juliet is there ." with a context of two words. *)

Definition example_words : list string :=
  ["Romeo"; "is"; "here"; "."; "Juliet"; "is"; "there"; "."]%string.

Definition example_model : ShakespeareMarkov :=
  match load_model 2 1000 example_words with
  | Ok self => self
  | Raise _ => init 2 1000
  end.

(** A generator whose every draw is 0. *)
Definition zero_rng : rng_state := mk_rng (fun _ => 0%Q) 0.

(** ** Specification-level notions *)

(** The fate of one word, as the specification lists the steps: delete
    the marks, drop the empty, the all-capitals (but "I" and "A") and the
    numeric word, keep the lower-cased rest. *)
Definition clean_word (w : string) : option string :=
  let s := strip_marks w in
  if bool_decide (s = EmptyString) then None
  else if isupper s && negb (bool_decide (s = "I"%string \/ s = "A"%string)) then None
  else if isdigit s then None
  else Some (lower s).

(** Number of occurrences and position of the first occurrence of a word. *)
Definition freq (w : string) (ws : list string) : nat :=
  length (filter (fun x => x = w) ws).

Fixpoint first_index (w : string) (ws : list string) : nat :=
  match ws with
  | [] => 0
  | x :: ws' => if bool_decide (x = w) then 0 else S (first_index w ws')
  end.

(** The distinct words in the order of their first appearance. *)
Definition first_seen (ws : list string) : list string :=
  fold_left (fun acc w => if decide (w ∈ acc) then acc else acc ++ [w]) ws [].

(** [a] is ranked before [b]: more frequent, or as frequent and seen first. *)
Definition ranked_before (ws : list string) (a b : string) : Prop :=
  (freq b ws < freq a ws)%nat \/
  (freq a ws = freq b ws /\ (first_index a ws < first_index b ws)%nat).

(** Order of two counter items: larger count first, and among equal
    counts the order [T] of the words. *)
Definition count_order (T : string -> string -> Prop) (x y : string * nat) : Prop :=
  (snd y < snd x)%nat \/ (snd x = snd y /\ T (fst x) (fst y)).

(** The items of the counter, sorted: the whole ranking of the words. *)
Definition ranking (ws : list string) : list (string * nat) :=
  sorted_by_count (Counter ws).

(** The windows of width [mlag + 1] over the stream, left to right. *)
Definition windows (mlag : nat) (stream : list Z) : list (list Z) :=
  map (fun s => take (mlag + 1) (drop s stream)) (seq 0 (length stream - mlag)).

(** A window is kept when its last two columns are not the sentinel. *)
Definition kept (mlag : nat) (row : list Z) : Prop :=
  nth mlag row 0%Z <> (-1)%Z /\ nth (mlag - 1) row 0%Z <> (-1)%Z.

#[global] Instance kept_dec mlag row : Decision (kept mlag row).
Proof. unfold kept. apply _. Defined.

(** The model once its table is set to [m]. *)
Definition with_table (self : ShakespeareMarkov) (m : ndarray) : ShakespeareMarkov :=
  mk_model (mlag self) (top_k self) (vocab self) (word_to_id self) (id_to_word self)
           (Some m) (tokens self).

(** The rows whose context columns [mlag - i .. mlag) equal the last [i]
    ids of the key, their targets, and the weight of each target. *)
Definition level_rows (mlag : nat) (table : list (list Z)) (key : list Z) (i : nat)
  : list (list Z) :=
  filter (fun row => take i (drop (mlag - i) row) = drop (length key - i) key) table.

Definition level_targets (mlag : nat) (table : list (list Z)) (key : list Z) (i : nat)
  : list Z :=
  map (fun row => nth mlag row 0%Z) (level_rows mlag table key i).

Definition level_weights (mlag : nat) (table : list (list Z)) (key : list Z) (i : nat)
  : list Q :=
  let n := length (level_rows mlag table key i) in
  repeat (1 / inject_Z (Z.of_nat n))%Q n.

(** The pool after all the levels, longest context first. *)
Definition pool_candidates (mlag : nat) (table : list (list Z)) (key : list Z) : list Z :=
  concat (map (level_targets mlag table key) (range_down (length key))).

Definition pool_weights (mlag : nat) (table : list (list Z)) (key : list Z) : list Q :=
  concat (map (level_weights mlag table key) (range_down (length key))).

(** The six marks, as characters. *)
Definition is_mark (c : ascii) : bool :=
  bool_decide (c ∈ [","; "."; ";"; "!"; ":"; "?"]%char).

(** Delete every space that stands immediately before a character
    satisfying [p]; keep every other character. *)
Fixpoint delete_space_before (p : ascii -> bool) (s : string) : string :=
  match s with
  | EmptyString => EmptyString
  | String c s' =>
      match s' with
      | String d _ =>
          if Ascii.eqb c " " && p d then delete_space_before p s'
          else String c (delete_space_before p s')
      | EmptyString => String c EmptyString
      end
  end.

Definition str_head (s : string) : option ascii :=
  match s with
  | EmptyString => None
  | String c _ => Some c
  end.

Definition concat_str (l : list string) : string :=
  fold_right String.append EmptyString l.

(** A token with its separating space, unless the token starts with a mark. *)
Definition glue (t : string) : string :=
  match t with
  | String d _ => if is_mark d then t else (" " ++ t)%string
  | EmptyString => " "%string
  end.

Definition no_space (t : string) : Prop :=
  str_all (fun c => negb (Ascii.eqb c " ")) t = true.

(** ** [load_and_process]: from the lines of the file to the words *)

(** [c.isspace()] on a code point below 128: tab to carriage return,
    the four separators 28 to 31, and the space. *)
Definition is_space_char (c : ascii) : bool :=
  ((9 <=? nat_of_ascii c) && (nat_of_ascii c <=? 13)) ||
  ((28 <=? nat_of_ascii c) && (nat_of_ascii c <=? 32)).

(** [s.lstrip()], [s.rstrip()], [s.strip()] *)
Fixpoint lstrip (s : string) : string :=
  match s with
  | EmptyString => EmptyString
  | String c s' => if is_space_char c then lstrip s' else s
  end.

Fixpoint rstrip (s : string) : string :=
  match s with
  | EmptyString => EmptyString
  | String c s' =>
      match rstrip s' with
      | EmptyString => if is_space_char c then EmptyString else String c EmptyString
      | r => String c r
      end
  end.

Definition strip (s : string) : string := lstrip (rstrip s).

Definition start_line : Z := 83.
Definition end_line : Z := 196043.

(** [" ".join([l.strip() for l in lines[start_line:end_line]])] *)
Definition raw_text (lines : list string) : string :=
  join " " (map strip (py_slice start_line end_line lines)).

(** What follows the first "]" of [s], provided no newline comes before
    it: where [.*?\]] ends when it starts at [s] (the dot does not match a
    newline). *)
Fixpoint after_close (s : string) : option string :=
  match s with
  | EmptyString => None
  | String c s' =>
      if Ascii.eqb c "]" then Some s'
      else if Ascii.eqb c "010" then None
      else after_close s'
  end.

(** [re.sub(r'\[.*?\]', '', s)]: matches are taken from left to right; a
    "[" starts one when a "]" follows on the same line, and the match ends
    at the first such "]". [inside] tells that the scan is within a match. *)
Fixpoint remove_spans (inside : bool) (s : string) : string :=
  match s with
  | EmptyString => EmptyString
  | String c s' =>
      if inside then
        if Ascii.eqb c "]" then remove_spans false s' else remove_spans true s'
      else if Ascii.eqb c "[" && bool_decide (is_Some (after_close s'))
      then remove_spans true s'
      else String c (remove_spans false s')
  end.

Definition remove_stage_directions (raw_text : string) : string :=
  remove_spans false raw_text.

(** [for p in puncs: text = text.replace(p, f" {p} ")] *)
Definition split_punct (text : string) : string :=
  fold_left (fun text p => replace p (" " ++ p ++ " ") text) puncs text.

(** [text.split()]: the maximal runs of characters that are not white
    space; [word] is the run being read. *)
Fixpoint split_from (word : string) (s : string) : list string :=
  match s with
  | EmptyString => if bool_decide (word = EmptyString) then [] else [word]
  | String c s' =>
      if is_space_char c then
        if bool_decide (word = EmptyString) then split_from EmptyString s'
        else word :: split_from EmptyString s'
      else split_from (word ++ String c EmptyString) s'
  end.

Definition split (text : string) : list string := split_from EmptyString text.

(** Steps 1 to 3 of [load_and_process]: the words handed to the cleaning
    loop, from the lines that [readlines] returned. *)
Definition words_of_lines (lines : list string) : list string :=
  split (split_punct (remove_stage_directions (raw_text lines))).

(** The whole of [load_and_process], after [f.readlines()]. *)
Definition load_and_process_lines (self : ShakespeareMarkov) (lines : list string)
  : result ShakespeareMarkov :=
  load_and_process self (words_of_lines lines).

(** ** [main.py] *)

Module Main.

(** [class GenerateRequest(BaseModel)] *)
Record GenerateRequest : Type := mk_request { start_word : string }.

(** What the endpoint hands back: the JSON body [{"sentence": ...}], or
    the [HTTPException] it raises. *)
Inductive reply : Type :=
  | Sentence (sentence : string)
  | HTTPException (status_code : nat) (detail : string).

(** The start-up half of [lifespan]: [ShakespeareMarkov()] with its
    default arguments is loaded, its table is built, and only then is it
    stored in [ml_models]. *)
Definition lifespan_startup (lines : list string) (ml_models : gmap string ShakespeareMarkov)
  : result (gmap string ShakespeareMarkov) :=
  let model := init 4 1000 in
  bind_result (load_and_process_lines model lines) (fun model =>
  bind_result (build_matrix model) (fun model =>
  Ok (<["shakespeare"%string := model]> ml_models))).

(** The shutdown half: [ml_models.clear()]. *)
Definition lifespan_shutdown (ml_models : gmap string ShakespeareMarkov)
  : gmap string ShakespeareMarkov := ∅.

(** [generate_text]: a model object is always truthy, so [not model]
    holds exactly when the key is missing. *)
Definition generate_text (fuel : nat) (ml_models : gmap string ShakespeareMarkov)
    (req : GenerateRequest) : rand (option reply) :=
  match ml_models !! "shakespeare"%string with
  | None => ret (Some (HTTPException 503 "Model is not ready"))
  | Some model =>
      (let* result := generate_sentence fuel model (lower (start_word req)) in
       ret (Sentence <$> result))%rand
  end.

End Main.

(** ** More specification-level notions *)

(** No "]" after a "[": no bracketed span is left. *)
Fixpoint span_free (s : string) : bool :=
  match s with
  | EmptyString => true
  | String c s' =>
      (if Ascii.eqb c "[" then negb (str_any (Ascii.eqb "]") s') else true) && span_free s'
  end.





(** ** A small text file *)



(** * The cleaning loop *)

Lemma clean_step_spec (acc : list string) (w : string) :
  clean_step acc w = acc ++ option_list (clean_word w).
Proof.
  unfold clean_step, clean_word.
  destruct (bool_decide (strip_marks w = EmptyString)); simpl.
  { by rewrite app_nil_r. }
  replace (bool_decide (strip_marks w ∈ ["I"%string; "A"%string]))
    with (bool_decide (strip_marks w = "I"%string \/ strip_marks w = "A"%string)).
  2:{ apply bool_decide_ext. rewrite !elem_of_cons, elem_of_nil. tauto. }
  destruct (isupper (strip_marks w) && _); simpl.
  { by rewrite app_nil_r. }
  destruct (isdigit (strip_marks w)); simpl; [by rewrite app_nil_r | done].
Qed.

Lemma clean_loop_from (words acc : list string) :
  fold_left clean_step words acc = acc ++ omap clean_word words.
Proof.
  revert acc. induction words as [|w words IH]; intros acc; simpl.
  - by rewrite app_nil_r.
  - rewrite IH, clean_step_spec, <- app_assoc. f_equal.
    by destruct (clean_word w).
Qed.

Lemma clean_word_kept (w t : string) :
  clean_word w = Some t -> t = lower (strip_marks w).
Proof. unfold clean_word. repeat case_match; congruence. Qed.

(** * The transition table *)

Lemma select_map_filter {A} (P : A -> Prop) `{!forall x, Decision (P x)} (l : list A) :
  select (map (fun x => bool_decide (P x)) l) l = filter P l.
Proof.
  induction l as [|x l IH]; simpl; [done |].
  rewrite IH, filter_cons.
  destruct (decide (P x)); [by rewrite bool_decide_eq_true_2 | by rewrite bool_decide_eq_false_2].
Qed.

Lemma zip_with_map_same {A B C D} (h : B -> C -> D) (f : A -> B) (g : A -> C) (l : list A) :
  zip_with h (map f l) (map g l) = map (fun x => h (f x) (g x)) l.
Proof. induction l; simpl; congruence. Qed.

Lemma windows_length mlag stream : length (windows mlag stream) = length stream - mlag.
Proof. unfold windows. by rewrite length_map, length_seq. Qed.

Lemma windows_width mlag stream row :
  row ∈ windows mlag stream -> length row = mlag + 1.
Proof.
  unfold windows. rewrite list_elem_of_fmap. intros (s & -> & Hs).
  apply elem_of_seq in Hs. rewrite length_take, length_drop. lia.
Qed.

Lemma sliding_window_view_windows (stream : list Z) (mlag : nat) :
  mlag + 1 <= length stream ->
  sliding_window_view stream (mlag + 1) = Ok (mk_ndarray (windows mlag stream) (mlag + 1)).
Proof.
  intros Hn. unfold sliding_window_view, windows.
  destruct (Nat.ltb_spec (length stream) (mlag + 1)); [lia |].
  by replace (length stream - (mlag + 1) + 1) with (length stream - mlag) by lia.
Qed.

Lemma build_matrix_ok (self : ShakespeareMarkov) :
  1 <= mlag self -> mlag self + 1 <= length (tokens self) ->
  build_matrix self =
    Ok (with_table self
         (mk_ndarray (filter (kept (mlag self)) (windows (mlag self) (tokens self)))
                     (mlag self + 1))).
Proof.
  intros Hm Hn. unfold build_matrix, with_table.
  rewrite sliding_window_view_windows by done. simpl.
  unfold column; simpl.
  replace (-1 + Z.of_nat (mlag self + 1))%Z with (Z.of_nat (mlag self)) by lia.
  replace (-2 + Z.of_nat (mlag self + 1))%Z with (Z.of_nat (mlag self - 1)) by lia.
  destruct (Z.ltb_spec (Z.of_nat (mlag self)) 0); [lia |].
  destruct (Z.leb_spec (Z.of_nat (mlag self + 1)) (Z.of_nat (mlag self))); [lia |].
  destruct (Z.ltb_spec (Z.of_nat (mlag self - 1)) 0); [lia |].
  destruct (Z.leb_spec (Z.of_nat (mlag self + 1)) (Z.of_nat (mlag self - 1))); [lia |].
  simpl. rewrite !Nat2Z.id, !map_map, zip_with_map_same.
  do 4 f_equal.
  rewrite <- (select_map_filter (kept (mlag self))).
  f_equal. apply map_ext. intros row.
  unfold kept.
  destruct (decide (nth (mlag self) row 0%Z = (-1)%Z)) as [E1|E1];
  destruct (decide (nth (mlag self - 1) row 0%Z = (-1)%Z)) as [E2|E2];
    rewrite ?(bool_decide_eq_true_2 _ E1), ?(bool_decide_eq_false_2 _ E1),
            ?(bool_decide_eq_true_2 _ E2), ?(bool_decide_eq_false_2 _ E2); simpl;
    symmetry; (apply bool_decide_eq_true_2 || apply bool_decide_eq_false_2); tauto.
Qed.

Lemma build_matrix_short (self : ShakespeareMarkov) :
  length (tokens self) < mlag self + 1 -> build_matrix self = Raise ValueError.
Proof.
  intros Hn. unfold build_matrix, sliding_window_view.
  by destruct (Nat.ltb_spec (length (tokens self)) (mlag self + 1)); [| lia].
Qed.

(** C2 (as amended): for a context order of at least 1, the table holds
    exactly the windows of width [mlag + 1] of the stream, in order, whose
    last and second-to-last columns are not the sentinel; there are
    [n - mlag] windows before filtering, earlier columns are not looked at,
    and the build fails exactly when the stream is shorter than [mlag + 1]. *)
Theorem build_matrix_sliding_window (self : ShakespeareMarkov) :
  1 <= mlag self ->
  (mlag self + 1 <= length (tokens self) ->
     build_matrix self =
       Ok (with_table self
            (mk_ndarray (filter (kept (mlag self)) (windows (mlag self) (tokens self)))
                        (mlag self + 1)))) /\
  length (windows (mlag self) (tokens self)) = length (tokens self) - mlag self /\
  (forall row, row ∈ filter (kept (mlag self)) (windows (mlag self) (tokens self)) <->
     row ∈ windows (mlag self) (tokens self) /\
     nth (mlag self) row 0%Z <> (-1)%Z /\ nth (mlag self - 1) row 0%Z <> (-1)%Z) /\
  (is_ok (build_matrix self) = false <-> length (tokens self) < mlag self + 1).
Proof.
  intros Hm. split; [by apply build_matrix_ok |].
  split; [apply windows_length |].
  split.
  { intros row. rewrite list_elem_of_filter. unfold kept. tauto. }
  split.
  - intros Hfail. destruct (Nat.lt_ge_cases (length (tokens self)) (mlag self + 1)); [done |].
    rewrite build_matrix_ok in Hfail by done. discriminate.
  - intros Hn. by rewrite build_matrix_short.
Qed.

Lemma build_matrix_sliding_window_witness :
  build_matrix (mk_model 1 5 [] ∅ ∅ None [0; -1; 2; 3]%Z) =
    Ok (with_table (mk_model 1 5 [] ∅ ∅ None [0; -1; 2; 3]%Z)
          (mk_ndarray [[2; 3]%Z] 2)) /\
  is_ok (build_matrix (mk_model 1 5 [] ∅ ∅ None [0%Z])) = false.
Proof.
  split.
  - apply (build_matrix_sliding_window (mk_model 1 5 [] ∅ ∅ None [0; -1; 2; 3]%Z));
      simpl; lia.
  - apply (build_matrix_sliding_window (mk_model 1 5 [] ∅ ∅ None [0%Z])); simpl; lia.
Defined.

(** With a context order of 0 a window has a single column: asking for the
    second-to-last one is out of bounds, and the build fails although the
    stream has [mlag + 1] positions. *)
Lemma build_matrix_order_zero_fails :
  exists self,
    load_and_process (init 0 1000) ["a"%string] = Ok self /\
    tokens self = [0%Z] /\
    mlag self + 1 <= length (tokens self) /\
    build_matrix self = Raise IndexError.
Proof.
  eexists. split; [reflexivity |]. split; [reflexivity |].
  split; [vm_compute; lia | reflexivity].
Qed.
(** * Start words that never reach the predictor *)

Example detokenize_terminator : detokenize ["."%string] = "."%string.
Proof. reflexivity. Qed.

(** C10: when the start word is the terminator "." and is in the
    vocabulary, the loop condition fails at its first test: the sentence
    is "." and the generator has not been asked for a single draw (the
    predictor is never called), whatever the table is. *)
Theorem generate_from_terminator (fuel : nat) (self : ShakespeareMarkov) (g : rng_state) :
  0 < fuel ->
  is_Some (word_to_id self !! "."%string) ->
  generate_tokens fuel self "." g = Ok (Some ["."%string], g) /\
  generate_sentence fuel self "." g = Ok (Some "."%string, g).
Proof.
  intros Hfuel [i Hi]. unfold generate_sentence, generate_tokens. rewrite Hi.
  destruct fuel as [|fuel]; [lia |]. done.
Qed.

Lemma generate_from_terminator_witness :
  generate_sentence 51 (mk_model 2 10 ["."%string] {["."%string := 0%Z]} {[0%Z := "."%string]} None [0%Z])
    "." (mk_rng (fun _ => 0%Q) 0)
  = Ok (Some "."%string, mk_rng (fun _ => 0%Q) 0).
Proof.
  apply (generate_from_terminator 51); [lia | by exists 0%Z].
Defined.

(** On the model of the witness, which has no table, a single call of the
    predictor would have raised. *)
Example next_word_without_table :
  next_word (mk_model 2 10 ["."%string] {["."%string := 0%Z]} {[0%Z := "."%string]} None [0%Z])
    ["."%string] (mk_rng (fun _ => 0%Q) 0)
  = Raise TypeError.
Proof. reflexivity. Qed.

(** An unknown start word is answered by the fixed message before
    anything is drawn. *)
Lemma generate_unknown (fuel : nat) (self : ShakespeareMarkov) (start_word : string)
    (g : rng_state) :
  word_to_id self !! start_word = None ->
  generate_sentence fuel self start_word g = Ok (Some unknown_start_word, g).
Proof. intros H. unfold generate_sentence. by rewrite H. Qed.

(** * Vocabulary size 0 or less *)

Lemma most_common_nonpositive (n : Z) (c : list (string * nat)) :
  (n <= 0)%Z -> most_common n c = [].
Proof. intros Hn. unfold most_common. by destruct (Z.leb_spec n 0); [| lia]. Qed.

(** C7 (as amended): building the vocabulary never fails; for
    [top_k <= 0] it yields the empty vocabulary, empty dictionaries and a
    stream made of sentinels only. *)
Theorem load_and_process_total (self : ShakespeareMarkov) (words : list string) :
  exists self', load_and_process self words = Ok self' /\
    ((top_k self <= 0)%Z ->
       vocab self' = [] /\ word_to_id self' = ∅ /\ id_to_word self' = ∅ /\
       tokens self' = repeat (-1)%Z (length (clean_words words))).
Proof.
  eexists. split; [reflexivity |]. intros Hk. simpl.
  rewrite most_common_nonpositive by done. simpl.
  repeat split; try done.
  unfold build_word_to_id; simpl.
  induction (clean_words words) as [|w ws IH]; simpl; [done |]. by rewrite IH.
Qed.

Lemma load_and_process_total_witness :
  exists self', load_and_process (init 4 0) ["romeo"; "is"]%string = Ok self' /\
    vocab self' = [] /\ tokens self' = [-1; -1]%Z.
Proof.
  destruct (load_and_process_total (init 4 0) ["romeo"; "is"]%string) as (self' & Hload & H).
  exists self'. split; [exact Hload |].
  destruct H as (Hv & _ & _ & Ht); [simpl; lia |]. split; [exact Hv | exact Ht].
Defined.

(** A vocabulary size of 0 is accepted: the build returns a model. *)
Lemma load_and_process_zero_size_succeeds :
  (top_k (init 4 0) <= 0)%Z /\
  is_ok (load_and_process (init 4 0) ["romeo"; "is"; "here"; "."]%string) = true.
Proof. split; [simpl; lia | reflexivity]. Qed.
(** * The detokenizer *)

Lemma delete_step (p : ascii -> bool) (c d : ascii) (s : string) :
  delete_space_before p (String c (String d s)) =
  if Ascii.eqb c " " && p d then delete_space_before p (String d s)
  else String c (delete_space_before p (String d s)).
Proof. reflexivity. Qed.

Lemma delete_keep (p : ascii -> bool) (c : ascii) (s : string) :
  Ascii.eqb c " " && from_option p false (str_head s) = false ->
  delete_space_before p (String c s) = String c (delete_space_before p s).
Proof. destruct s as [|d s]; simpl; [done |]. by intros ->. Qed.

Lemma delete_drop (p : ascii -> bool) (d : ascii) (s : string) :
  p d = true ->
  delete_space_before p (String " " (String d s)) = delete_space_before p (String d s).
Proof. cbn [delete_space_before]. by intros ->. Qed.

Lemma delete_ext (p q : ascii -> bool) (s : string) :
  (forall c, p c = q c) -> delete_space_before p s = delete_space_before q s.
Proof.
  intros Hpq. induction s as [|c s IH]; [done |].
  cbn [delete_space_before]. destruct s as [|d s]; [done |].
  by rewrite IH, Hpq.
Qed.

(** The first character that survives is the first character, unless
    that was a deleted space, in which case it is a character of [p]. *)
Lemma delete_head (p : ascii -> bool) (s : string) (h : ascii) :
  p " "%char = false ->
  str_head (delete_space_before p s) = Some h ->
  str_head s = Some h \/ (str_head s = Some " "%char /\ p h = true).
Proof.
  intros Hp. destruct s as [|c [|d s]]; [done | by left |].
  destruct (Ascii.eqb_spec c " ") as [->|Hc].
  - destruct (p d) eqn:Hd.
    + rewrite delete_drop by done.
      rewrite delete_keep.
      * intros [= <-]. by right.
      * destruct (Ascii.eqb_spec d " ") as [->|]; [congruence | done].
    + rewrite delete_keep by (simpl; by rewrite Hd). by left.
  - rewrite delete_keep by (by rewrite (proj2 (Ascii.eqb_neq _ _) Hc)). by left.
Qed.

Lemma delete_head_none (p : ascii -> bool) (s : string) :
  str_head (delete_space_before p s) = None -> s = EmptyString.
Proof.
  induction s as [|c s IH]; [done |]. cbn [delete_space_before].
  destruct s as [|d s]; [done |].
  destruct (Ascii.eqb c " " && p d); [| done].
  intros H. by specialize (IH H).
Qed.

(** Two passes for disjoint sets of characters, none of them the space,
    amount to one pass for their union. *)
Lemma delete_twice (p q : ascii -> bool) (s : string) :
  p " "%char = false -> q " "%char = false ->
  (forall c, p c = true -> q c = false) ->
  delete_space_before q (delete_space_before p s) =
  delete_space_before (fun c => p c || q c) s.
Proof.
  intros Hp Hq Hpq. induction s as [|c s IH]; [done |].
  destruct s as [|d s]; [done |].
  destruct (Ascii.eqb_spec c " ") as [->|Hc].
  - destruct (p d) eqn:Hd.
    + rewrite (delete_drop p), (delete_drop (fun c => p c || q c)) by (by rewrite ?Hd). done.
    + rewrite (delete_keep p) by (simpl; by rewrite Hd).
      destruct (str_head (delete_space_before p (String d s))) as [h|] eqn:Hh.
      2:{ by apply delete_head_none in Hh. }
      assert (q h = q d) as Hqh.
      { apply delete_head in Hh as [[= ->]| [[= ->] Hph]]; [done | | done].
        by rewrite Hq, (Hpq _ Hph). }
      destruct (delete_space_before p (String d s)) as [|h' r] eqn:Hr; [done |].
      injection Hh as ->.
      rewrite !delete_step, <- IH, Hqh, Hd. done.
  - rewrite (delete_keep p), (delete_keep (fun c => p c || q c))
      by (by rewrite (proj2 (Ascii.eqb_neq _ _) Hc)).
    rewrite delete_keep by (by rewrite (proj2 (Ascii.eqb_neq _ _) Hc)).
    by rewrite IH.
Qed.

Lemma replace_from_test (old new : string) (c : ascii) (s : string) :
  replace_from old new 0 (String c s) =
  if String.prefix old (String c s)
  then (new ++ replace_from old new (String.length old - 1) s)%string
  else String c (replace_from old new 0 s).
Proof. reflexivity. Qed.

Lemma prefix_space_mark (pc c : ascii) (s : string) :
  String.prefix (String " " (String pc EmptyString)) (String c s) =
  Ascii.eqb c " " && from_option (Ascii.eqb pc) false (str_head s).
Proof.
  cbn [String.prefix]. destruct (ascii_dec " " c) as [<-|Hc].
  - destruct s as [|d s]; [done |]. cbn [String.prefix str_head from_option].
    destruct (ascii_dec pc d) as [<-|Hd].
    + rewrite !Ascii.eqb_refl. by destruct s.
    + by rewrite (proj2 (Ascii.eqb_neq _ _) Hd).
  - rewrite (proj2 (Ascii.eqb_neq c " ")) by congruence. done.
Qed.

(** One [replace(" " + p, p)] is one pass. *)
Lemma replace_one_mark (pc : ascii) (s : string) :
  pc <> " "%char ->
  replace (String " " (String pc EmptyString)) (String pc EmptyString) s =
  delete_space_before (Ascii.eqb pc) s.
Proof.
  intros Hpc. unfold replace.
  assert (Hpc' : (pc =? " ")%char = false) by (by apply Ascii.eqb_neq).
  induction s as [|c s IH]; [done |].
  rewrite replace_from_test, prefix_space_mark.
  destruct s as [|d s].
  { by rewrite andb_false_r. }
  rewrite delete_step. cbn [str_head from_option].
  destruct (Ascii.eqb c " " && Ascii.eqb pc d) eqn:Hcd.
  - apply andb_prop in Hcd as [_ <-%Ascii.eqb_eq].
    rewrite replace_from_test, prefix_space_mark, Hpc' in IH. simpl in IH.
    simpl. exact IH.
  - by rewrite IH.
Qed.

Lemma detokenize_delete (toks : list string) :
  detokenize toks = delete_space_before is_mark (join " " toks).
Proof.
  unfold detokenize, puncs. cbn [fold_left].
  repeat match goal with
         | |- context [String.append ?a ?b] =>
             let r := eval vm_compute in (String.append a b) in
             change (String.append a b) with r
         end.
  rewrite !replace_one_mark by done.
  rewrite !delete_twice; try done;
    try (intros c Hc; apply Ascii.eqb_eq in Hc; subst c; reflexivity).
  apply delete_ext. intros c. unfold is_mark.
  destruct (decide (c ∈ [","; "."; ";"; "!"; ":"; "?"]%char)) as [Hin|Hin].
  - rewrite (bool_decide_eq_true_2 _ Hin).
    rewrite !elem_of_cons, elem_of_nil in Hin.
    destruct Hin as [->|[->|[->|[->|[->|[->|[]]]]]]]; reflexivity.
  - rewrite (bool_decide_eq_false_2 _ Hin).
    rewrite !elem_of_cons, elem_of_nil in Hin.
    repeat match goal with
           | |- context [Ascii.eqb ?a c] =>
               destruct (Ascii.eqb_spec a c) as [<-|?]; [exfalso; apply Hin; tauto |]
           end.
    done.
Qed.
Lemma append_cons (c : ascii) (s t : string) :
  String.append (String c s) t = String c (String.append s t).
Proof. reflexivity. Qed.

Lemma append_empty_l (t : string) : String.append EmptyString t = t.
Proof. reflexivity. Qed.

Lemma append_empty_r (t : string) : String.append t EmptyString = t.
Proof. induction t as [|c t IH]; [done |]. by rewrite append_cons, IH. Qed.

Lemma join_cons (t : string) (ts : list string) :
  join " " (t :: ts) = String.append t (concat_str (map (String.append " ") ts)).
Proof.
  revert t. induction ts as [|u ts IH]; intros t.
  - simpl. by rewrite append_empty_r.
  - change (join " " (t :: u :: ts))
      with (String.append t (String.append " " (join " " (u :: ts)))).
    rewrite IH. reflexivity.
Qed.

Lemma delete_app_no_space (p : ascii -> bool) (t s : string) :
  no_space t ->
  delete_space_before p (String.append t s) = String.append t (delete_space_before p s).
Proof.
  unfold no_space. induction t as [|c t IH]; [done |].
  cbn [str_all]. intros [Hc Ht]%andb_prop.
  rewrite !append_cons, delete_keep, IH; [done | done |].
  by apply negb_true_iff in Hc as ->.
Qed.

Lemma delete_glued (ts : list string) :
  Forall no_space ts ->
  delete_space_before is_mark (concat_str (map (String.append " ") ts)) =
  concat_str (map glue ts).
Proof.
  induction 1 as [|u ts Hu Hts IH]; [done |].
  cbn [map concat_str fold_right]. fold (concat_str (map (String.append " ") ts)).
  fold (concat_str (map glue ts)).
  rewrite append_cons, append_empty_l, append_cons.
  destruct u as [|d u].
  - rewrite append_empty_l. cbn [glue]. rewrite append_cons, append_empty_l, <- IH.
    apply delete_keep.
    destruct ts as [|v ts]; [done |].
    cbn [map concat_str fold_right]. by rewrite !append_cons.
  - cbn [glue]. rewrite append_cons. destruct (is_mark d) eqn:Hd.
    + rewrite delete_drop by done.
      rewrite <- append_cons, delete_app_no_space by done. by rewrite IH.
    + rewrite delete_keep by (simpl; by rewrite Hd).
      rewrite <- append_cons, delete_app_no_space by done.
      by rewrite IH, !append_cons, append_empty_l.
Qed.

(** C9: the sentence is the tokens joined by single spaces with exactly
    the spaces standing immediately before one of , . ; ! : ? deleted, every
    one of them and nothing else; on tokens without inner spaces this puts
    each mark-led token directly after its predecessor and keeps the space
    in front of every other token. *)
Theorem detokenize_deletes_spaces_before_marks (toks : list string) :
  detokenize toks = delete_space_before is_mark (join " " toks) /\
  (forall t ts, toks = t :: ts -> Forall no_space toks ->
     detokenize toks = String.append t (concat_str (map glue ts))).
Proof.
  split; [apply detokenize_delete |].
  intros t ts -> [Ht Hts]%Forall_cons.
  by rewrite detokenize_delete, join_cons, delete_app_no_space, delete_glued.
Qed.

Lemma detokenize_deletes_spaces_before_marks_witness :
  detokenize ["romeo"; ","; "is"; "here"; "."]%string = "romeo, is here."%string.
Proof.
  apply (proj2 (detokenize_deletes_spaces_before_marks
                  ["romeo"; ","; "is"; "here"; "."]%string) _ _ eq_refl).
  repeat constructor.
Defined.
(** * The vocabulary *)

(** ** Frequencies and first appearances *)

Lemma freq_app (w : string) (l k : list string) : freq w (l ++ k) = freq w l + freq w k.
Proof. unfold freq. by rewrite filter_app, length_app. Qed.

Lemma freq_singleton (w x : string) : freq w [x] = if decide (x = w) then 1 else 0.
Proof. unfold freq. rewrite filter_cons, filter_nil. by destruct (decide (x = w)). Qed.

Lemma freq_zero (w : string) (ws : list string) : w ∉ ws -> freq w ws = 0.
Proof.
  unfold freq. induction ws as [|x ws IH]; [done |].
  rewrite not_elem_of_cons. intros [Hne Hnin].
  rewrite filter_cons. destruct (decide (x = w)); [congruence | by apply IH].
Qed.

Lemma freq_pos (w : string) (ws : list string) : w ∈ ws -> 0 < freq w ws.
Proof.
  unfold freq. induction ws as [|x ws IH]; [by rewrite elem_of_nil |].
  rewrite elem_of_cons, filter_cons. intros [->|Hin].
  - rewrite decide_True by done. simpl. lia.
  - destruct (decide (x = w)); [simpl; lia | by apply IH].
Qed.

Lemma first_index_lt (w : string) (ws : list string) :
  w ∈ ws -> first_index w ws < length ws.
Proof.
  induction ws as [|x ws IH]; [by rewrite elem_of_nil |].
  rewrite elem_of_cons. simpl. intros Hin.
  destruct (decide (x = w)) as [E|E].
  - rewrite (bool_decide_eq_true_2 _ E). lia.
  - rewrite (bool_decide_eq_false_2 _ E). destruct Hin as [->|Hin]; [done |].
    specialize (IH Hin). lia.
Qed.

Lemma first_index_lookup (w : string) (ws : list string) :
  w ∈ ws -> ws !! first_index w ws = Some w.
Proof.
  induction ws as [|x ws IH]; [by rewrite elem_of_nil |].
  rewrite elem_of_cons. simpl. intros Hin.
  destruct (decide (x = w)) as [E|E].
  - rewrite (bool_decide_eq_true_2 _ E). by subst.
  - rewrite (bool_decide_eq_false_2 _ E). destruct Hin as [->|Hin]; [done |].
    by apply IH.
Qed.

Lemma first_index_app_l (w : string) (l k : list string) :
  w ∈ l -> first_index w (l ++ k) = first_index w l.
Proof.
  induction l as [|x l IH]; [by rewrite elem_of_nil |].
  rewrite elem_of_cons. simpl. intros Hin.
  destruct (decide (x = w)) as [E|E].
  - by rewrite (bool_decide_eq_true_2 _ E).
  - rewrite (bool_decide_eq_false_2 _ E). destruct Hin as [->|Hin]; [done |].
    by rewrite IH.
Qed.

Lemma first_index_app_r (w : string) (l k : list string) :
  w ∉ l -> first_index w (l ++ k) = length l + first_index w k.
Proof.
  induction l as [|x l IH]; [done |].
  rewrite not_elem_of_cons. simpl. intros [Hne Hnin].
  rewrite bool_decide_eq_false_2 by congruence. by rewrite IH.
Qed.

(** ** [first_seen] *)

Lemma first_seen_snoc (ws : list string) (w : string) :
  first_seen (ws ++ [w]) =
  if decide (w ∈ first_seen ws) then first_seen ws else first_seen ws ++ [w].
Proof. unfold first_seen. by rewrite fold_left_app. Qed.

Lemma elem_of_first_seen (ws : list string) (w : string) :
  w ∈ first_seen ws <-> w ∈ ws.
Proof.
  induction ws as [|x ws IH] using rev_ind; [done |].
  rewrite first_seen_snoc, elem_of_app, list_elem_of_singleton.
  destruct (decide (x ∈ first_seen ws)) as [Hx|Hx].
  - rewrite IH. split; [tauto |]. intros [?| ->]; [done | by apply IH].
  - by rewrite elem_of_app, list_elem_of_singleton, IH.
Qed.

Lemma NoDup_first_seen (ws : list string) : NoDup (first_seen ws).
Proof.
  induction ws as [|x ws IH] using rev_ind; [constructor |].
  rewrite first_seen_snoc. destruct (decide (x ∈ first_seen ws)) as [Hx|Hx]; [done |].
  apply NoDup_app. split_and!; [done | | apply NoDup_singleton].
  intros y Hy. rewrite list_elem_of_singleton. by intros ->.
Qed.

(** Earlier in [first_seen] means first met earlier in the sequence. *)
Lemma first_seen_order (ws : list string) :
  StronglySorted (fun a b => first_index a ws < first_index b ws) (first_seen ws).
Proof.
  induction ws as [|x ws IH] using rev_ind; [constructor |].
  assert (StronglySorted
            (fun a b => first_index a (ws ++ [x]) < first_index b (ws ++ [x]))
            (first_seen ws)) as IH'.
  { assert (Forall (fun a => a ∈ ws) (first_seen ws)) as Hall.
    { apply Forall_forall. intros a. apply elem_of_first_seen. }
    revert IH Hall. generalize (first_seen ws) as l.
    induction l as [|a l IHl]; [constructor |].
    rewrite !StronglySorted_cons, Forall_cons. intros [Ha Hl] [Hain Hlin].
    split; [| by apply IHl].
    rewrite Forall_forall in Ha, Hlin |- *. intros b Hb.
    rewrite !first_index_app_l by auto. auto. }
  rewrite first_seen_snoc. destruct (decide (x ∈ first_seen ws)) as [Hx|Hx]; [done |].
  apply StronglySorted_app. split_and!; [| done | repeat constructor].
  intros a b Ha ->%list_elem_of_singleton.
  rewrite elem_of_first_seen in Ha, Hx.
  rewrite first_index_app_l, first_index_app_r by done.
  pose proof (first_index_lt a ws Ha). lia.
Qed.

(** ** [Counter] *)

Lemma Counter_snoc (ws : list string) (w : string) :
  Counter (ws ++ [w]) = counter_add w (Counter ws).
Proof. unfold Counter. by rewrite fold_left_app. Qed.

Lemma counter_add_keys (f : string -> nat) (w : string) (ks : list string) :
  NoDup ks -> (w ∉ ks -> f w = 0) ->
  counter_add w (map (fun x => (x, f x)) ks) =
  map (fun x => (x, if decide (x = w) then S (f x) else f x))
      (if decide (w ∈ ks) then ks else ks ++ [w]).
Proof.
  intros Hnd Hf. induction Hnd as [|k ks Hk Hnd IH].
  - simpl. rewrite decide_True by done. by rewrite Hf by apply not_elem_of_nil.
  - cbn [map counter_add]. destruct (decide (k = w)) as [->|Hkw].
    + rewrite bool_decide_eq_true_2, (decide_True (P := w ∈ w :: ks))
        by (done || apply list_elem_of_here).
      cbn [map]. rewrite decide_True by done. f_equal.
      apply map_ext_in. intros x Hx%list_elem_of_In.
      rewrite decide_False; [done |]. by intros ->.
    + rewrite bool_decide_eq_false_2 by done.
      rewrite IH by (intros ?; apply Hf, not_elem_of_cons; split; [congruence | done]).
      destruct (decide (w ∈ ks)) as [Hw|Hw].
      * rewrite (decide_True (P := w ∈ k :: ks)) by (by apply list_elem_of_further).
        cbn [map]. by rewrite (decide_False (P := k = w)).
      * rewrite (decide_False (P := w ∈ k :: ks))
          by (apply not_elem_of_cons; split; [congruence | done]).
        cbn [map app]. by rewrite (decide_False (P := k = w)).
Qed.

(** The counter lists the distinct words in order of first appearance,
    each with its number of occurrences. *)
Lemma Counter_first_seen (ws : list string) :
  Counter ws = map (fun w => (w, freq w ws)) (first_seen ws).
Proof.
  induction ws as [|x ws IH] using rev_ind; [done |].
  rewrite Counter_snoc, IH, counter_add_keys.
  - rewrite first_seen_snoc. apply map_ext. intros w.
    rewrite freq_app, freq_singleton.
    destruct (decide (w = x)) as [->|Hne].
    + rewrite decide_True by done. f_equal. lia.
    + rewrite decide_False by congruence. f_equal. lia.
  - apply NoDup_first_seen.
  - rewrite elem_of_first_seen. apply freq_zero.
Qed.
(** ** The stable sort *)

Lemma insert_by_count_perm (x : string * nat) (l : list (string * nat)) :
  insert_by_count x l ≡ₚ x :: l.
Proof.
  induction l as [|y l IH]; [done |]. simpl.
  destruct (snd x <? snd y); [| done].
  by rewrite IH, Permutation_swap.
Qed.

Lemma sorted_by_count_perm (c : list (string * nat)) : sorted_by_count c ≡ₚ c.
Proof.
  induction c as [|x c IH]; [done |]. simpl.
  by rewrite insert_by_count_perm, IH.
Qed.

Lemma insert_by_count_sorted (T : string -> string -> Prop) (x : string * nat)
    (l : list (string * nat)) :
  StronglySorted (count_order T) l ->
  Forall (fun y => T (fst x) (fst y)) l ->
  StronglySorted (count_order T) (insert_by_count x l).
Proof.
  induction l as [|y l IH]; [repeat constructor |].
  rewrite StronglySorted_cons, Forall_cons. intros [Hy Hl] [Hxy Hxl]. simpl.
  destruct (Nat.ltb_spec (snd x) (snd y)) as [Hlt|Hge].
  - apply StronglySorted_cons. split; [| by apply IH].
    rewrite insert_by_count_perm. apply Forall_cons. split; [by left | done].
  - apply StronglySorted_cons. split; [| by apply StronglySorted_cons].
    assert (forall z, (snd z <= snd x)%nat -> T (fst x) (fst z) -> count_order T x z) as Hord.
    { intros z Hz Hx. destruct (decide (snd z = snd x)) as [E|E].
      - right. by split.
      - left. lia. }
    apply Forall_cons. split; [by apply Hord |].
    rewrite Forall_forall in Hy, Hxl |- *. intros z Hz.
    apply Hord; [| by apply Hxl].
    destruct (Hy z Hz) as [?|[? _]]; lia.
Qed.

Lemma sorted_by_count_sorted (T : string -> string -> Prop) (c : list (string * nat)) :
  StronglySorted (fun x y => T (fst x) (fst y)) c ->
  StronglySorted (count_order T) (sorted_by_count c).
Proof.
  induction c as [|x c IH]; [constructor |].
  rewrite StronglySorted_cons. intros [Hx Hc]. simpl.
  apply insert_by_count_sorted; [by apply IH |].
  by rewrite sorted_by_count_perm.
Qed.

Lemma StronglySorted_lookup {A} (R : A -> A -> Prop) (l : list A) (i j : nat) (x y : A) :
  StronglySorted R l -> i < j -> l !! i = Some x -> l !! j = Some y -> R x y.
Proof.
  intros Hl Hij Hi Hj. rewrite <- (take_drop j l) in Hl.
  apply (StronglySorted_app_1_elem_of _ _ _ _ _ Hl).
  - apply elem_of_take. eauto.
  - apply list_elem_of_lookup. exists 0. by rewrite lookup_drop, Nat.add_0_r.
Qed.

(** ** The ranking of the words *)

Lemma ranking_perm (ws : list string) :
  ranking ws ≡ₚ map (fun w => (w, freq w ws)) (first_seen ws).
Proof. unfold ranking. by rewrite sorted_by_count_perm, Counter_first_seen. Qed.

Lemma elem_of_ranking (ws : list string) (x : string * nat) :
  x ∈ ranking ws <-> fst x ∈ ws /\ snd x = freq (fst x) ws.
Proof.
  rewrite ranking_perm, list_elem_of_fmap. setoid_rewrite elem_of_first_seen.
  split.
  - by intros (w & -> & Hw).
  - intros [Hw Hn]. exists (fst x). split; [| done]. destruct x; simpl in *; congruence.
Qed.

Lemma ranking_keys_NoDup (ws : list string) : NoDup (map fst (ranking ws)).
Proof.
  rewrite ranking_perm, map_map. simpl. rewrite map_id. apply NoDup_first_seen.
Qed.

Lemma ranking_sorted (ws : list string) :
  StronglySorted
    (count_order (fun a b => first_index a ws < first_index b ws)) (ranking ws).
Proof.
  apply sorted_by_count_sorted. rewrite Counter_first_seen.
  pose proof (first_seen_order ws) as H. revert H.
  generalize (first_seen ws) as l. induction l as [|a l IH]; [constructor |].
  cbn [map]. rewrite !StronglySorted_cons. intros [Ha Hl]. split; [| by apply IH].
  apply Forall_forall. intros x (b & -> & Hb)%list_elem_of_fmap. simpl.
  by apply (proj1 (Forall_forall _ _) Ha).
Qed.

Lemma ranking_ranked_before (ws : list string) (x y : string * nat) :
  x ∈ ranking ws -> y ∈ ranking ws ->
  count_order (fun a b => first_index a ws < first_index b ws) x y ->
  ranked_before ws (fst x) (fst y).
Proof.
  rewrite !elem_of_ranking. intros [_ Hx] [_ Hy]. unfold count_order, ranked_before.
  rewrite Hx, Hy. tauto.
Qed.

Lemma ranking_length (ws : list string) :
  length (ranking ws) = size (list_to_set ws : gset string).
Proof.
  rewrite ranking_perm, length_map.
  rewrite <- (size_list_to_set (C := gset string)) by apply NoDup_first_seen.
  f_equal. apply set_eq. intros w. by rewrite !elem_of_list_to_set, elem_of_first_seen.
Qed.

(** ** The dictionaries *)

Lemma elem_of_enumerate {A} (l : list A) (z : Z) (x : A) :
  (z, x) ∈ enumerate l <-> exists i, l !! i = Some x /\ z = Z.of_nat i.
Proof.
  unfold enumerate. rewrite list_elem_of_lookup. split.
  - intros (i & Hi). apply lookup_zip_with_Some in Hi as (z' & x' & [= -> ->] & Hz & Hx).
    rewrite list_lookup_fmap in Hz. destruct (seq 0 (length l) !! i) as [k|] eqn:Hk; [| done].
    apply lookup_seq in Hk as [-> _]. injection Hz as <-. eauto.
  - intros (i & Hi & ->). exists i. apply lookup_zip_with_Some.
    exists (Z.of_nat i), x. split_and!; [done | | done].
    rewrite list_lookup_fmap.
    rewrite (proj2 (lookup_seq 0 (length l) i i)); [done |].
    split; [done |]. by apply lookup_lt_Some in Hi.
Qed.

Lemma enumerate_snd {A} (l : list A) : map snd (enumerate l) = l.
Proof. unfold enumerate. apply snd_zip. by rewrite length_map, length_seq. Qed.

Lemma enumerate_fst_NoDup {A} (l : list A) : NoDup (map fst (enumerate l)).
Proof.
  unfold enumerate. rewrite fst_zip by (by rewrite length_map, length_seq).
  apply (NoDup_fmap_2 Z.of_nat), NoDup_seq.
Qed.

Lemma fold_insert_snd (l : list (Z * string)) (m : gmap string Z) (w : string) (z : Z) :
  NoDup (map snd l) ->
  fold_left (fun m iw => <[snd iw := fst iw]> m) l m !! w = Some z <->
  (z, w) ∈ l \/ ((w ∉ map snd l) /\ m !! w = Some z).
Proof.
  revert m. induction l as [|[i k] l IH]; intros m; cbn [map fold_left snd fst].
  { rewrite elem_of_nil. intros _. split; [intros ?; right; split; [apply not_elem_of_nil | done] | tauto]. }
  rewrite NoDup_cons. intros [Hk Hl]. rewrite IH by done.
  rewrite elem_of_cons, not_elem_of_cons. destruct (decide (k = w)) as [->|Hne].
  - rewrite lookup_insert_eq. split.
    + intros [Hin|[_ [= ->]]]; [| left; by left].
      exfalso. apply Hk. apply list_elem_of_fmap. by exists (z, w).
    + intros [[[= -> ]|Hin]|[[? _] _]]; [| | done].
      * right. split; [done | done].
      * exfalso. apply Hk. apply list_elem_of_fmap. by exists (z, w).
  - rewrite lookup_insert_ne by done. split.
    + intros [?|[? ?]]; [by left; right | right; split; [split; congruence | done]].
    + intros [[[= _ ?]|?]|[[_ ?] ?]]; [congruence | by left | by right].
Qed.

Lemma fold_insert_fst (l : list (Z * string)) (m : gmap Z string) (w : string) (z : Z) :
  NoDup (map fst l) ->
  fold_left (fun m iw => <[fst iw := snd iw]> m) l m !! z = Some w <->
  (z, w) ∈ l \/ ((z ∉ map fst l) /\ m !! z = Some w).
Proof.
  revert m. induction l as [|[i k] l IH]; intros m; cbn [map fold_left snd fst].
  { rewrite elem_of_nil. intros _. split; [intros ?; right; split; [apply not_elem_of_nil | done] | tauto]. }
  rewrite NoDup_cons. intros [Hk Hl]. rewrite IH by done.
  rewrite elem_of_cons, not_elem_of_cons. destruct (decide (i = z)) as [->|Hne].
  - rewrite lookup_insert_eq. split.
    + intros [Hin|[_ [= ->]]]; [| left; by left].
      exfalso. apply Hk. apply list_elem_of_fmap. by exists (z, w).
    + intros [[[= -> ]|Hin]|[[? _] _]]; [| | done].
      * right. split; [done | done].
      * exfalso. apply Hk. apply list_elem_of_fmap. by exists (z, w).
  - rewrite lookup_insert_ne by done. split.
    + intros [?|[? ?]]; [by left; right | right; split; [split; congruence | done]].
    + intros [[[= ? _]|?]|[[_ ?] ?]]; [congruence | by left | by right].
Qed.

Lemma build_word_to_id_lookup (V : list string) (w : string) (z : Z) :
  NoDup V ->
  build_word_to_id V !! w = Some z <-> exists i, V !! i = Some w /\ z = Z.of_nat i.
Proof.
  intros HV. unfold build_word_to_id.
  rewrite fold_insert_snd by (by rewrite enumerate_snd).
  rewrite lookup_empty, elem_of_enumerate.
  split; [intros [?|[_ ?]]; done | by left].
Qed.

Lemma build_id_to_word_lookup (V : list string) (w : string) (z : Z) :
  build_id_to_word V !! z = Some w <-> exists i, V !! i = Some w /\ z = Z.of_nat i.
Proof.
  unfold build_id_to_word.
  rewrite fold_insert_fst by apply enumerate_fst_NoDup.
  rewrite lookup_empty, elem_of_enumerate.
  split; [intros [?|[_ ?]]; done | by left].
Qed.
(** ** The retained words *)

Lemma most_common_ranking (n : Z) (ws : list string) :
  most_common n (Counter ws) = take (Z.to_nat n) (ranking ws).
Proof.
  unfold most_common, ranking. destruct (Z.leb_spec n 0); [| done].
  by replace (Z.to_nat n) with 0 by lia.
Qed.

Section top_words.
Variables (k : nat) (ws : list string).

Let V : list string := map fst (take k (ranking ws)).

Lemma top_words_NoDup : NoDup V.
Proof.
  unfold V. change (NoDup (fst <$> take k (ranking ws))).
  rewrite fmap_take. eapply sublist_NoDup; [| apply sublist_take].
  apply ranking_keys_NoDup.
Qed.

Lemma top_words_length :
  length V = Nat.min k (size (list_to_set ws : gset string)).
Proof. unfold V. by rewrite length_map, length_take, ranking_length. Qed.

Lemma top_words_lookup (i : nat) (w : string) :
  V !! i = Some w <-> i < k /\ ranking ws !! i = Some (w, freq w ws).
Proof.
  unfold V. change (map fst (take k (ranking ws))) with (fst <$> take k (ranking ws)).
  rewrite list_lookup_fmap. split.
  - destruct (take k (ranking ws) !! i) as [[w' n]|] eqn:Hi; [| done].
    intros [= ->]. apply lookup_take_Some in Hi as [Hi Hk].
    split; [done |]. rewrite Hi. do 2 f_equal.
    assert ((w, n) ∈ ranking ws) as Hin by (apply list_elem_of_lookup; eauto).
    by apply elem_of_ranking in Hin as [_ ?].
  - intros [Hk Hi].
    by rewrite (proj2 (lookup_take_Some (ranking ws) k i (w, freq w ws)) (conj Hi Hk)).
Qed.

Lemma top_words_elem_of (w : string) : w ∈ V -> w ∈ ws.
Proof.
  intros (i & Hi)%list_elem_of_lookup. apply top_words_lookup in Hi as [_ Hi].
  assert ((w, freq w ws) ∈ ranking ws) as Hin by (apply list_elem_of_lookup; eauto).
  by apply elem_of_ranking in Hin as [? _].
Qed.

Lemma top_words_ranked (i j : nat) (a b : string) :
  i < j -> V !! i = Some a -> V !! j = Some b -> ranked_before ws a b.
Proof.
  intros Hij [_ Ha]%top_words_lookup [_ Hb]%top_words_lookup.
  apply (ranking_ranked_before ws (a, freq a ws) (b, freq b ws)).
  - apply list_elem_of_lookup; eauto.
  - apply list_elem_of_lookup; eauto.
  - eapply StronglySorted_lookup; [apply ranking_sorted | done..].
Qed.

(** Every word left out is ranked after every word retained. *)
Lemma top_words_best (a b : string) :
  a ∈ V -> b ∈ ws -> b ∉ V -> ranked_before ws a b.
Proof.
  intros (i & Hi)%list_elem_of_lookup Hb Hnb.
  assert ((b, freq b ws) ∈ ranking ws) as (j & Hj)%list_elem_of_lookup
    by (by apply elem_of_ranking).
  pose proof Hi as [Hik Hi']%top_words_lookup.
  assert (k <= j) as Hkj.
  { destruct (Nat.le_gt_cases k j) as [?|Hlt]; [done |]. exfalso. apply Hnb.
    apply list_elem_of_lookup. exists j. by apply top_words_lookup. }
  apply (ranking_ranked_before ws (a, freq a ws) (b, freq b ws)).
  - apply list_elem_of_lookup; eauto.
  - apply list_elem_of_lookup; eauto.
  - eapply (StronglySorted_lookup _ _ i j); [apply ranking_sorted | lia | done..].
Qed.
End top_words.

Lemma tokens_lookup (w2i : gmap string Z) (ws : list string) (p : nat) (w : string) :
  ws !! p = Some w ->
  map (fun w => default (-1)%Z (w2i !! w)) ws !! p = Some (default (-1)%Z (w2i !! w)).
Proof.
  intros Hp.
  change (((fun w => default (-1)%Z (w2i !! w)) <$> ws) !! p
          = Some (default (-1)%Z (w2i !! w))).
  by rewrite list_lookup_fmap, Hp.
Qed.

(** C6: for a positive [top_k], the vocabulary is made of the [top_k] most
    frequent distinct cleaned words (all of them when there are fewer), in
    descending frequency with ties in order of first appearance; ids are
    the positions 0 .. |vocab|-1 in that list, so [word_to_id] and
    [id_to_word] are inverse bijections between the words and their ids;
    and the stream holds, position by position, the id of the word, or -1
    when the word is not in the vocabulary. *)
Theorem vocabulary_top_k (self : ShakespeareMarkov) (words : list string) :
  (0 < top_k self)%Z ->
  let cw := clean_words words in
  exists self', load_and_process self words = Ok self' /\
    let V := vocab self' in
    NoDup V /\
    length V = Nat.min (Z.to_nat (top_k self)) (size (list_to_set cw : gset string)) /\
    (Z.of_nat (length V) <= top_k self)%Z /\
    (forall w, w ∈ V -> w ∈ cw) /\
    (forall i j a b, i < j -> V !! i = Some a -> V !! j = Some b -> ranked_before cw a b) /\
    (forall a b, a ∈ V -> b ∈ cw -> b ∉ V -> ranked_before cw a b) /\
    (forall w z, word_to_id self' !! w = Some z <-> exists i, V !! i = Some w /\ z = Z.of_nat i) /\
    (forall w z, id_to_word self' !! z = Some w <-> exists i, V !! i = Some w /\ z = Z.of_nat i) /\
    (forall w z, word_to_id self' !! w = Some z <-> id_to_word self' !! z = Some w) /\
    length (tokens self') = length cw /\
    (forall p w, cw !! p = Some w ->
       tokens self' !! p = Some (default (-1)%Z (word_to_id self' !! w))) /\
    (forall w, w ∉ V -> word_to_id self' !! w = None).
Proof.
  intros Hk cw. eexists. split; [reflexivity |]. cbn [vocab word_to_id id_to_word tokens].
  fold cw. rewrite most_common_ranking.
  set (V := map fst (take (Z.to_nat (top_k self)) (ranking cw))).
  assert (NoDup V) as HV by apply top_words_NoDup.
  assert (length V = Nat.min (Z.to_nat (top_k self)) (size (list_to_set cw : gset string)))
    as Hlen by apply top_words_length.
  split_and!.
  - done.
  - done.
  - lia.
  - apply top_words_elem_of.
  - apply top_words_ranked.
  - apply top_words_best.
  - intros w z. by apply build_word_to_id_lookup.
  - intros w z. apply build_id_to_word_lookup.
  - intros w z. by rewrite build_word_to_id_lookup, build_id_to_word_lookup.
  - by rewrite length_map.
  - intros p w. apply tokens_lookup.
  - intros w Hw. destruct (build_word_to_id V !! w) as [z|] eqn:Hz; [| done].
    apply build_word_to_id_lookup in Hz as (i & Hi & _); [| done].
    exfalso. apply Hw. apply list_elem_of_lookup. eauto.
Qed.
(** * Sampling *)

(** ** Sums of rationals *)

Lemma Qsum_app (l k : list Q) : (Qsum (l ++ k) == Qsum l + Qsum k)%Q.
Proof.
  induction l as [|x l IH]; simpl; [ring |]. rewrite IH. ring.
Qed.


Lemma Qsum_nonneg (l : list Q) : Forall (fun x => (0 <= x)%Q) l -> (0 <= Qsum l)%Q.
Proof.
  induction 1 as [|x l Hx Hl IH]; simpl; [apply Qle_refl |].
  replace 0%Q with (0 + 0)%Q by reflexivity. by apply Qplus_le_compat.
Qed.

Lemma Qsum_pos (l : list Q) :
  l <> [] -> Forall (fun x => (0 < x)%Q) l -> (0 < Qsum l)%Q.
Proof.
  intros Hne Hl. destruct Hl as [|x l Hx Hl]; [done |]. simpl.
  apply Qlt_le_trans with (x + 0)%Q; [by rewrite Qplus_0_r |].
  apply Qplus_le_compat; [apply Qle_refl |].
  apply Qsum_nonneg. eapply Forall_impl; [exact Hl |]. intros y. apply Qlt_le_weak.
Qed.

Lemma Qsum_scale (l : list Q) (d : Q) :
  ~ (d == 0)%Q -> (Qsum (map (fun w => w / d) l) == Qsum l / d)%Q.
Proof.
  intros Hd. induction l as [|x l IH]; simpl; [by field |]. rewrite IH. by field.
Qed.

Lemma normalise_sum (weights : list Q) :
  (0 < Qsum weights)%Q -> (Qsum (normalise weights) == 1)%Q.
Proof.
  intros Hpos. unfold normalise.
  assert (~ (Qsum weights == 0)%Q) as Hne.
  { intros E. rewrite E in Hpos. by apply Qlt_irrefl in Hpos. }
  rewrite Qsum_scale by done. by field.
Qed.

Lemma normalise_nonneg (weights : list Q) :
  Forall (fun x => (0 < x)%Q) weights -> (0 < Qsum weights)%Q ->
  Forall (fun x => (0 <= x)%Q) (normalise weights).
Proof.
  intros Hw Hpos. unfold normalise. apply Forall_forall.
  intros y (x & -> & Hx)%list_elem_of_fmap.
  apply Qlt_le_weak, Qlt_shift_div_l; [done |]. rewrite Qmult_0_l.
  by apply (proj1 (Forall_forall _ _) Hw).
Qed.

(** ** The cumulative distribution *)

Lemma cumsum_from_length (acc : Q) (l : list Q) :
  length (cumsum_from acc l) = length l.
Proof. revert acc. induction l as [|x l IH]; intros acc; simpl; [done |]. by rewrite IH. Qed.

Lemma cumsum_from_last (acc d : Q) (l : list Q) :
  l <> [] -> (List.last (cumsum_from acc l) d == acc + Qsum l)%Q.
Proof.
  revert acc. induction l as [|x l IH]; intros acc Hne; [done |].
  destruct l as [|y l].
  - simpl. ring.
  - change (List.last (cumsum_from (acc + x) (y :: l)) d == acc + (x + Qsum (y :: l)))%Q.
    rewrite IH by done. ring.
Qed.

Lemma searchsorted_right_Qeq (l k : list Q) (u : Q) :
  Forall2 Qeq l k -> searchsorted_right l u = searchsorted_right k u.
Proof.
  unfold searchsorted_right. induction 1 as [|x y l k Hxy Hlk IH]; [done |].
  rewrite !filter_cons.
  assert (Qle_bool x u = Qle_bool y u) as E.
  { apply eq_true_iff_eq. rewrite !Qle_bool_iff. by rewrite Hxy. }
  rewrite <- E. destruct (decide (Qle_bool x u)); simpl; by rewrite IH.
Qed.

Lemma searchsorted_right_all_above (acc u : Q) (p : list Q) :
  Forall (fun x => (0 <= x)%Q) p -> (u < acc)%Q ->
  searchsorted_right (cumsum_from acc p) u = 0.
Proof.
  unfold searchsorted_right. intros Hp. revert acc.
  induction Hp as [|x p Hx Hp IH]; intros acc Hu; [done |].
  cbn [cumsum_from]. rewrite filter_cons.
  assert (u < acc + x)%Q as Hu'.
  { apply Qlt_le_trans with (acc + 0)%Q; [by rewrite Qplus_0_r |].
    apply Qplus_le_compat; [apply Qle_refl | done]. }
  rewrite decide_False; [by apply IH |].
  intros H. apply Is_true_true, Qle_bool_iff in H. by apply Qle_not_lt in H.
Qed.

Lemma searchsorted_right_cons (c u : Q) (cdf : list Q) :
  searchsorted_right (c :: cdf) u =
  if Qle_bool c u then S (searchsorted_right cdf u) else searchsorted_right cdf u.
Proof.
  unfold searchsorted_right. rewrite filter_cons.
  destruct (Qle_bool c u); reflexivity.
Qed.

(** The located position brackets the draw between the cumulative
    weights before and after it. *)
Lemma searchsorted_right_bracket (acc u : Q) (p : list Q) (idx : nat) :
  Forall (fun x => (0 <= x)%Q) p -> (acc <= u)%Q ->
  idx = searchsorted_right (cumsum_from acc p) u ->
  idx <= length p /\
  (acc + Qsum (take idx p) <= u)%Q /\
  (idx < length p -> (u < acc + Qsum (take (S idx) p))%Q).
Proof.
  intros Hp. revert acc idx. induction Hp as [|x p Hx Hp IH]; intros acc idx Hacc ->.
  - cbn. split; [done |]. split; [by rewrite Qplus_0_r | lia].
  - cbn [cumsum_from]. rewrite searchsorted_right_cons.
    destruct (Qle_bool (acc + x) u) eqn:Hle.
    + apply Qle_bool_iff in Hle.
      destruct (IH (acc + x)%Q _ Hle eq_refl) as (H1 & H2 & H3).
      set (idx := searchsorted_right (cumsum_from (acc + x) p) u) in *.
      cbn [length]. split; [lia |]. split.
      * change (take (S idx) (x :: p)) with (x :: take idx p).
        change (Qsum (x :: take idx p)) with (x + Qsum (take idx p))%Q.
        by rewrite Qplus_assoc.
      * intros Hlt.
        change (take (S (S idx)) (x :: p)) with (x :: take (S idx) p).
        change (Qsum (x :: take (S idx) p)) with (x + Qsum (take (S idx) p))%Q.
        rewrite Qplus_assoc. apply H3. lia.
    + assert (u < acc + x)%Q as Hu.
      { apply Qnot_le_lt. intros H. apply Qle_bool_iff in H. congruence. }
      rewrite searchsorted_right_all_above by done.
      cbn [length]. split; [lia |]. split.
      * change (Qsum (take 0 (x :: p))) with 0%Q. by rewrite Qplus_0_r.
      * intros _. change (Qsum (take 1 (x :: p))) with (x + Qsum (take 0 p))%Q.
        rewrite take_0. change (Qsum []) with 0%Q. by rewrite Qplus_0_r.
Qed.

(** ** [np.random.choice] *)

Lemma random_choice_ok (a : list Z) (g : rng_state) :
  a <> [] -> uniform_draws g ->
  exists x, x ∈ a /\ random_choice a g = Ok (x, snd (next_draw g)).
Proof.
  intros Ha Hg. unfold random_choice. destruct a as [|a0 a]; [done |].
  set (l := a0 :: a). cbn [next_draw].
  destruct (Hg (pos g)) as [H0 H1].
  set (u := draws g (pos g)) in *.
  set (n := Z.of_nat (length l)).
  assert (0 < n)%Z as Hn by (unfold n, l; simpl; lia).
  assert (0 <= Qfloor (u * inject_Z n) < n)%Z as [Hf0 Hf1].
  { split.
    - change 0%Z with (Qfloor 0). apply Qfloor_resp_le.
      apply Qmult_le_0_compat; [done |]. change 0%Q with (inject_Z 0).
      rewrite <- Zle_Qle. lia.
    - rewrite Zlt_Qlt. eapply Qle_lt_trans; [apply Qfloor_le |].
      rewrite <- (Qmult_1_l (inject_Z n)) at 2.
      apply Qmult_lt_compat_r; [| done].
      change 0%Q with (inject_Z 0). rewrite <- Zlt_Qlt. lia. }
  destruct (l !! Z.to_nat (Qfloor (u * inject_Z n))) as [x|] eqn:Hx.
  - exists x. split; [| done]. apply list_elem_of_lookup. eauto.
  - apply lookup_ge_None in Hx. unfold n in *. lia.
Qed.
Lemma normalise_length (weights : list Q) : length (normalise weights) = length weights.
Proof. unfold normalise. by rewrite length_map. Qed.

Lemma rescale_by_one (cdf : list Q) (d : Q) :
  (d == 1)%Q -> Forall2 Qeq (map (fun c => (c / d)%Q) cdf) cdf.
Proof.
  intros Hd. induction cdf as [|c cdf IH]; constructor; [| done].
  rewrite Hd. by field.
Qed.

(** A weighted draw: the checks of [choice] pass on normalised positive
    weights, and the chosen position is the one whose cumulative
    probability interval contains the draw. *)
Lemma random_choice_p_ok (a : list Z) (weights : list Q) (g : rng_state) :
  a <> [] -> length a = length weights ->
  Forall (fun x => (0 < x)%Q) weights -> uniform_draws g ->
  exists idx x,
    a !! idx = Some x /\
    random_choice_p a (normalise weights) g = Ok (x, snd (next_draw g)) /\
    (Qsum (take idx (normalise weights)) <= draws g (pos g))%Q /\
    (draws g (pos g) < Qsum (take (S idx) (normalise weights)))%Q.
Proof.
  intros Ha Hlen Hw Hg.
  assert (weights <> []) as Hwne by (intros ->; by destruct a).
  assert (0 < Qsum weights)%Q as Hpos by (by apply Qsum_pos).
  pose proof (normalise_sum weights Hpos) as Hsum.
  pose proof (normalise_nonneg weights Hw Hpos) as Hnn.
  pose proof (normalise_length weights) as Hplen.
  set (probs := normalise weights) in *.
  destruct (Hg (pos g)) as [Hu0 Hu1].
  set (idx := searchsorted_right (cumsum_from 0 probs) (draws g (pos g))).
  destruct (searchsorted_right_bracket 0 (draws g (pos g)) probs idx Hnn Hu0 eq_refl)
    as (Hidx & Hlo & Hhi).
  rewrite Qplus_0_l in Hlo.
  assert (idx < length probs) as Hlt.
  { destruct (decide (idx = length probs)) as [E|E]; [| lia].
    exfalso. rewrite E, firstn_all, Hsum in Hlo. by apply Qle_not_lt in Hlo. }
  specialize (Hhi Hlt). rewrite Qplus_0_l in Hhi.
  destruct (a !! idx) as [x|] eqn:Hx.
  2:{ apply lookup_ge_None in Hx. lia. }
  exists idx, x. split_and!; [done | | done | done].
  unfold random_choice_p. destruct a as [|a0 a]; [done |].
  rewrite Hplen, <- Hlen, Nat.eqb_refl. cbn [negb].
  assert (forallb (fun x => Qle_bool 0 x) probs = true) as ->.
  { apply forallb_forall. intros y Hy%list_elem_of_In. apply Qle_bool_iff.
    by apply (proj1 (Forall_forall _ _) Hnn). }
  assert (Qeq_bool (Qsum probs) 1 = true) as -> by (by apply Qeq_bool_iff).
  cbn [negb next_draw].
  assert (probs <> []) as Hpne by (intros E; rewrite E in Hlt; simpl in Hlt; lia).
  rewrite (searchsorted_right_Qeq _ (cumsum_from 0 probs)).
  - fold idx. by rewrite Hx.
  - apply rescale_by_one. by rewrite cumsum_from_last, Qplus_0_l.
Qed.
(** * The back-off predictor *)

(** ** Slices *)

Lemma slice_bound_nonneg (len : nat) (x : nat) :
  x <= len -> slice_bound len (Z.of_nat x) = x.
Proof.
  intros Hx. unfold slice_bound.
  destruct (Z.ltb_spec (Z.of_nat x) 0); lia.
Qed.

Lemma slice_bound_from_end (len i : nat) :
  1 <= i <= len -> slice_bound len (- Z.of_nat i) = len - i.
Proof.
  intros Hi. unfold slice_bound.
  destruct (Z.ltb_spec (- Z.of_nat i) 0); lia.
Qed.

Lemma py_slice_context {A} (mlag i : nat) (row : list A) :
  i <= mlag -> length row = mlag + 1 ->
  py_slice (Z.of_nat mlag - Z.of_nat i) (Z.of_nat mlag) row = take i (drop (mlag - i) row).
Proof.
  intros Hi Hrow. unfold py_slice. rewrite Hrow.
  replace (Z.of_nat mlag - Z.of_nat i)%Z with (Z.of_nat (mlag - i)) by lia.
  rewrite !slice_bound_nonneg by lia. f_equal. lia.
Qed.

Lemma py_slice_from_end {A} (i : nat) (l : list A) :
  1 <= i <= length l -> py_slice_from (- Z.of_nat i) l = drop (length l - i) l.
Proof. intros Hi. unfold py_slice_from. by rewrite slice_bound_from_end. Qed.

Lemma key_ids_of_length (self : ShakespeareMarkov) (key_words : list string) :
  1 <= mlag self -> length (key_ids_of self key_words) <= mlag self.
Proof.
  intros Hm. unfold key_ids_of.
  destruct (Nat.ltb_spec (mlag self) (length (omap (fun k => word_to_id self !! k) key_words)))
    as [Hlt|Hge]; [| done].
  rewrite py_slice_from_end, length_drop by lia. lia.
Qed.

Lemma elem_of_range_down (n i : nat) : i ∈ range_down n <-> 1 <= i <= n.
Proof.
  unfold range_down. rewrite list_elem_of_In, <- in_rev, <- list_elem_of_In, elem_of_seq. lia.
Qed.




(** ** One level *)

Lemma select_map_map {A B} (P : A -> Prop) `{!forall x, Decision (P x)} (g : A -> B)
    (l : list A) :
  select (map (fun x => bool_decide (P x)) l) (map g l) = map g (filter P l).
Proof.
  induction l as [|x l IH]; [done |]. cbn [map select]. rewrite IH, filter_cons.
  destruct (decide (P x)); [by rewrite bool_decide_eq_true_2 | by rewrite bool_decide_eq_false_2].
Qed.

Lemma any_map_filter {A} (P : A -> Prop) `{!forall x, Decision (P x)} (l : list A) :
  any (map (fun x => bool_decide (P x)) l) = negb (bool_decide (filter P l = [])).
Proof.
  unfold any. induction l as [|x l IH]; [done |]. cbn [map existsb]. rewrite IH, filter_cons.
  destruct (decide (P x)); [by rewrite bool_decide_eq_true_2 | by rewrite bool_decide_eq_false_2].
Qed.

Section level.
Variables (self : ShakespeareMarkov) (m : ndarray) (key : list Z).
Hypothesis table : M self = Some m.
Hypothesis shape : acols m = mlag self + 1.
Hypothesis widths : Forall (fun row => length row = mlag self + 1) (arows m).
Hypothesis key_short : length key <= mlag self.

Lemma rows_equal_level (i : nat) :
  1 <= i <= length key ->
  rows_equal (column_slice m (Z.of_nat (mlag self) - Z.of_nat i) (Z.of_nat (mlag self)))
             (py_slice_from (- Z.of_nat i) key) =
  Ok (map (fun row => bool_decide
             (take i (drop (mlag self - i) row) = drop (length key - i) key))
          (arows m)).
Proof.
  intros Hi. unfold rows_equal, column_slice. cbn [acols arows].
  rewrite py_slice_from_end by done. rewrite shape.
  replace (Z.of_nat (mlag self) - Z.of_nat i)%Z with (Z.of_nat (mlag self - i)) by lia.
  rewrite !slice_bound_nonneg by lia. rewrite length_drop.
  replace (mlag self - (mlag self - i)) with i by lia.
  replace (length key - (length key - i)) with i by lia.
  rewrite Nat.eqb_refl, map_map. f_equal.
  apply map_ext_in. intros row Hrow%list_elem_of_In.
  replace (Z.of_nat (mlag self - i)) with (Z.of_nat (mlag self) - Z.of_nat i)%Z by lia.
  rewrite py_slice_context; [done | lia |].
  by apply (proj1 (Forall_forall _ _) widths).
Qed.

Lemma column_target :
  column m (Z.of_nat (mlag self)) = Ok (map (fun row => nth (mlag self) row 0%Z) (arows m)).
Proof.
  unfold column. rewrite shape.
  assert ((Z.of_nat (mlag self) <? 0)%Z = false) as E1 by (apply Z.ltb_ge; lia).
  assert ((Z.of_nat (mlag self + 1) <=? Z.of_nat (mlag self))%Z = false) as E2
    by (apply Z.leb_gt; lia).
  rewrite E1. cbv iota. rewrite E1, E2. cbn [orb]. by rewrite Nat2Z.id.
Qed.

(** At level [i] the targets of the matching rows join the pool, each
    with weight 1 / (number of matching rows). *)
Lemma backoff_step_level (st : list Z * list Q) (i : nat) :
  1 <= i <= length key ->
  backoff_step self key st i =
  Ok (fst st ++ level_targets (mlag self) (arows m) key i,
      snd st ++ level_weights (mlag self) (arows m) key i).
Proof.
  intros Hi. unfold backoff_step. rewrite table, rows_equal_level by done.
  cbn [bind_result]. rewrite any_map_filter. fold (level_rows (mlag self) (arows m) key i).
  unfold level_targets, level_weights.
  destruct (decide (level_rows (mlag self) (arows m) key i = [])) as [E|E].
  - rewrite (bool_decide_eq_true_2 _ E), E. simpl. rewrite !app_nil_r. by destruct st.
  - rewrite (bool_decide_eq_false_2 _ E). cbn [negb].
    rewrite column_target. cbn [bind_result].
    rewrite select_map_map. fold (level_rows (mlag self) (arows m) key i).
    by rewrite length_map.
Qed.

Lemma for_each_levels (levels : list nat) (st : list Z * list Q) :
  (forall i, i ∈ levels -> 1 <= i <= length key) ->
  for_each (backoff_step self key) levels st =
  Ok (fst st ++ concat (map (level_targets (mlag self) (arows m) key) levels),
      snd st ++ concat (map (level_weights (mlag self) (arows m) key) levels)).
Proof.
  revert st. induction levels as [|i levels IH]; intros st Hlv.
  - simpl. rewrite !app_nil_r. by destruct st.
  - cbn [for_each]. rewrite backoff_step_level by (apply Hlv, list_elem_of_here).
    cbn [bind_result]. rewrite IH by (intros j Hj; by apply Hlv, list_elem_of_further).
    cbn [fst snd map concat]. by rewrite !app_assoc.
Qed.

Lemma backoff_pool_all_levels :
  backoff_pool self key =
  Ok (pool_candidates (mlag self) (arows m) key, pool_weights (mlag self) (arows m) key).
Proof.
  unfold backoff_pool. rewrite for_each_levels; [done |].
  intros i. apply elem_of_range_down.
Qed.

End level.


Lemma level_weights_pos (mlag : nat) (table : list (list Z)) (key : list Z) (i : nat) :
  Forall (fun x => (0 < x)%Q) (level_weights mlag table key i).
Proof.
  unfold level_weights. apply Forall_forall.
  intros x Hx%list_elem_of_In. pose proof Hx as ->%repeat_spec.
  destruct (level_rows mlag table key i) as [|r rs]; [done |].
  apply Qlt_shift_div_l.
  - change 0%Q with (inject_Z 0). rewrite <- Zlt_Qlt. simpl. lia.
  - rewrite Qmult_0_l. reflexivity.
Qed.

Lemma pool_weights_pos (mlag : nat) (table : list (list Z)) (key : list Z) :
  Forall (fun x => (0 < x)%Q) (pool_weights mlag table key).
Proof.
  unfold pool_weights. apply Forall_concat, Forall_forall.
  intros l (i & -> & _)%list_elem_of_fmap. apply level_weights_pos.
Qed.

Lemma pool_lengths (mlag : nat) (table : list (list Z)) (key : list Z) :
  length (pool_candidates mlag table key) =
  length (pool_weights mlag table key).
Proof.
  unfold pool_candidates, pool_weights.
  induction (range_down (length key)) as [|i l IH]; [done |].
  cbn [map concat]. rewrite !length_app, IH. f_equal.
  unfold level_targets, level_weights. by rewrite length_map, repeat_length.
Qed.

Lemma elem_of_pool_candidates (mlag : nat) (table : list (list Z)) (key : list Z) (c : Z) :
  c ∈ pool_candidates mlag table key <->
  exists i row, 1 <= i <= length key /\
    row ∈ level_rows mlag table key i /\ c = nth mlag row 0%Z.
Proof.
  unfold pool_candidates. rewrite list_elem_of_In, in_concat.
  setoid_rewrite <- list_elem_of_In. split.
  - intros (l & (i & -> & Hi)%list_elem_of_fmap & Hc).
    apply elem_of_range_down in Hi. unfold level_targets in Hc.
    apply list_elem_of_fmap in Hc as (row & -> & Hrow). eauto.
  - intros (i & row & Hi & Hrow & ->). exists (level_targets mlag table key i).
    split.
    + apply list_elem_of_fmap. exists i. split; [done |]. by apply elem_of_range_down.
    + unfold level_targets. apply list_elem_of_fmap. eauto.
Qed.
(** * What start-up establishes *)

Lemma build_matrix_inv (self self' : ShakespeareMarkov) :
  build_matrix self = Ok self' ->
  1 <= mlag self /\ mlag self + 1 <= length (tokens self) /\
  self' = with_table self
            (mk_ndarray (filter (kept (mlag self)) (windows (mlag self) (tokens self)))
                        (mlag self + 1)).
Proof.
  intros Hb.
  destruct (Nat.lt_ge_cases (length (tokens self)) (mlag self + 1)) as [Hlt|Hge].
  { rewrite build_matrix_short in Hb by done. discriminate. }
  destruct (decide (mlag self = 0)) as [E|E].
  { exfalso. unfold build_matrix in Hb. rewrite sliding_window_view_windows in Hb by done.
    rewrite E in Hb. discriminate. }
  rewrite build_matrix_ok in Hb by lia. injection Hb as <-. split_and!; [lia | done | done].
Qed.

Lemma elem_of_valid_tokens (self : ShakespeareMarkov) (t : Z) :
  t ∈ valid_tokens self <-> t ∈ tokens self /\ t <> (-1)%Z.
Proof. unfold valid_tokens. rewrite list_elem_of_filter. tauto. Qed.

Lemma window_target (mlag : nat) (stream row : list Z) :
  row ∈ windows mlag stream -> nth mlag row 0%Z ∈ stream.
Proof.
  unfold windows. intros (s & -> & Hs)%list_elem_of_fmap. apply elem_of_seq in Hs.
  apply list_elem_of_lookup. exists (s + mlag).
  assert (take (mlag + 1) (drop s stream) !! mlag = stream !! (s + mlag)) as Hl.
  { rewrite lookup_take_lt by lia. by rewrite lookup_drop. }
  destruct (stream !! (s + mlag)) as [t|] eqn:Ht.
  - by rewrite (nth_lookup_Some _ _ _ _ Hl).
  - apply lookup_ge_None in Ht. lia.
Qed.

Lemma load_model_inv (mlag0 : nat) (k : Z) (words : list string) (self : ShakespeareMarkov) :
  load_model mlag0 k words = Ok self ->
  mlag self = mlag0 /\
  vocab self = map fst (take (Z.to_nat k) (ranking (clean_words words))) /\
  word_to_id self = build_word_to_id (vocab self) /\
  id_to_word self = build_id_to_word (vocab self) /\
  tokens self = map (fun w => default (-1)%Z (word_to_id self !! w)) (clean_words words) /\
  1 <= mlag0 /\ mlag0 + 1 <= length (clean_words words) /\
  M self = Some (mk_ndarray (filter (kept mlag0) (windows mlag0 (tokens self))) (mlag0 + 1)).
Proof.
  unfold load_model, load_and_process. cbn [bind_result init top_k mlag M].
  intros (Hm & Hn & ->)%build_matrix_inv. cbn [mlag tokens] in Hm, Hn.
  rewrite length_map in Hn. unfold with_table. cbn.
  by rewrite most_common_ranking.
Qed.

Lemma load_model_well_formed (mlag0 : nat) (k : Z) (words : list string)
    (self : ShakespeareMarkov) :
  load_model mlag0 k words = Ok self -> well_formed self.
Proof.
  intros (Hmlag & HV & Hw2i & Hi2w & Htok & Hm & Hn & HM)%load_model_inv.
  assert (NoDup (vocab self)) as Hnd by (rewrite HV; apply top_words_NoDup).
  assert (forall t, t ∈ tokens self -> t = (-1)%Z \/ is_Some (id_to_word self !! t)) as Htoks.
  { intros t. rewrite Htok. intros (w & -> & _)%list_elem_of_fmap.
    destruct (word_to_id self !! w) as [z|] eqn:Hz; [| by left]. right. simpl.
    rewrite Hw2i in Hz. apply build_word_to_id_lookup in Hz; [| done].
    exists w. rewrite Hi2w. by apply build_id_to_word_lookup. }
  constructor.
  - lia.
  - done.
  - intros w z. rewrite Hw2i. by apply build_word_to_id_lookup.
  - intros w z. rewrite Hi2w. apply build_id_to_word_lookup.
  - done.
  - eexists. split; [exact HM |]. rewrite Hmlag. split; [done |].
    apply Forall_forall. intros row [[Hk _] Hrow]%list_elem_of_filter.
    split; [by apply windows_width in Hrow |].
    apply elem_of_valid_tokens. split; [by apply window_target | done].
Qed.

Lemma well_formed_words (self : ShakespeareMarkov) (w : string) :
  well_formed self -> (w ∈ vocab self <-> is_Some (word_to_id self !! w)).
Proof.
  intros Hwf. rewrite list_elem_of_lookup. split.
  - intros (i & Hi). exists (Z.of_nat i). apply (wf_word_to_id _ Hwf). eauto.
  - intros (z & Hz). apply (wf_word_to_id _ Hwf) in Hz as (i & Hi & _). eauto.
Qed.

Lemma well_formed_word_of_id (self : ShakespeareMarkov) (t : Z) :
  well_formed self -> t ∈ valid_tokens self ->
  exists w, word_of_id self t = Ok w /\ id_to_word self !! t = Some w /\ w ∈ vocab self.
Proof.
  intros Hwf [Ht Hne]%elem_of_valid_tokens. unfold word_of_id.
  destruct (wf_tokens _ Hwf t Ht) as [?|[w Hw]]; [done |].
  exists w. rewrite Hw. split_and!; [done | done |].
  apply (wf_id_to_word _ Hwf) in Hw as (i & Hi & _).
  apply list_elem_of_lookup. eauto.
Qed.

(** A word of the vocabulary occurs in the corpus, so the stream has a
    position that is not the sentinel. *)
Lemma load_model_valid_tokens (mlag0 : nat) (k : Z) (words : list string)
    (self : ShakespeareMarkov) (w : string) :
  load_model mlag0 k words = Ok self -> w ∈ vocab self -> valid_tokens self <> [].
Proof.
  intros Hload Hw. pose proof (load_model_well_formed _ _ _ _ Hload) as Hwf.
  apply load_model_inv in Hload as (_ & HV & _ & _ & Htok & _).
  assert (w ∈ clean_words words) as Hcw by (rewrite HV in Hw; by apply top_words_elem_of in Hw).
  apply (well_formed_words _ _ Hwf) in Hw as [z Hz].
  assert (z ∈ valid_tokens self) as Hin.
  { apply elem_of_valid_tokens. split.
    - rewrite Htok. apply list_elem_of_fmap. exists w. by rewrite Hz.
    - apply (wf_word_to_id _ Hwf) in Hz as (i & _ & ->). lia. }
  intros E. rewrite E in Hin. by apply elem_of_nil in Hin.
Qed.

(** A non-empty table has a target, which is a position of the stream
    that is not the sentinel. *)
Lemma table_nonempty_valid_tokens (self : ShakespeareMarkov) (m : ndarray) :
  well_formed self -> M self = Some m -> arows m <> [] -> valid_tokens self <> [].
Proof.
  intros Hwf HM Hne. destruct (wf_table _ Hwf) as (m' & HM' & _ & Hrows).
  rewrite HM in HM'. injection HM' as <-.
  destruct (arows m) as [|row rows]; [done |].
  apply Forall_cons in Hrows as [[_ Hin] _].
  intros E. rewrite E in Hin. by apply elem_of_nil in Hin.
Qed.
(** ** The predictor as a whole *)

Section predictor.
Variables (self : ShakespeareMarkov) (m : ndarray) (key_words : list string).
Hypothesis table : M self = Some m.
Hypothesis shape : acols m = mlag self + 1.
Hypothesis widths : Forall (fun row => length row = mlag self + 1) (arows m).
Hypothesis key_short : length (key_ids_of self key_words) <= mlag self.

Let key := key_ids_of self key_words.

Lemma next_word_weighted (g : rng_state) :
  uniform_draws g ->
  pool_candidates (mlag self) (arows m) key <> [] ->
  exists idx c,
    pool_candidates (mlag self) (arows m) key !! idx = Some c /\
    (Qsum (take idx (normalise (pool_weights (mlag self) (arows m) key)))
       <= draws g (pos g))%Q /\
    (draws g (pos g)
       < Qsum (take (S idx) (normalise (pool_weights (mlag self) (arows m) key))))%Q /\
    next_word self key_words g = lift (word_of_id self c) (snd (next_draw g)).
Proof.
  intros Hg Hne.
  destruct (random_choice_p_ok (pool_candidates (mlag self) (arows m) key)
              (pool_weights (mlag self) (arows m) key) g)
    as (idx & c & Hc & Hchoice & Hlo & Hhi);
    [done | by apply pool_lengths | by apply pool_weights_pos | done |].
  exists idx, c. split_and!; [done..|].
  unfold next_word. fold key.
  rewrite (backoff_pool_all_levels self m key table shape widths key_short).
  unfold bind, lift at 1. cbn [fst snd].
  destruct (pool_candidates (mlag self) (arows m) key) as [|c0 cs] eqn:E; [done |].
  by rewrite Hchoice.
Qed.

Lemma next_word_fallback (g : rng_state) :
  uniform_draws g ->
  pool_candidates (mlag self) (arows m) key = [] ->
  valid_tokens self <> [] ->
  exists c,
    c ∈ valid_tokens self /\
    random_choice (valid_tokens self) g = Ok (c, snd (next_draw g)) /\
    next_word self key_words g = lift (word_of_id self c) (snd (next_draw g)).
Proof.
  intros Hg Hnil Hvalid.
  destruct (random_choice_ok (valid_tokens self) g Hvalid Hg) as (c & Hc & Hchoice).
  exists c. split_and!; [done..|].
  unfold next_word. fold key.
  rewrite (backoff_pool_all_levels self m key table shape widths key_short).
  unfold bind, lift at 1. cbn [fst snd]. rewrite Hnil. by rewrite Hchoice.
Qed.
End predictor.

(** ** The predictor on a loaded model *)

Lemma well_formed_table (self : ShakespeareMarkov) :
  well_formed self ->
  exists m, M self = Some m /\ acols m = mlag self + 1 /\
    Forall (fun row => length row = mlag self + 1) (arows m) /\
    (forall key c, c ∈ pool_candidates (mlag self) (arows m) key -> c ∈ valid_tokens self).
Proof.
  intros Hwf. destruct (wf_table _ Hwf) as (m & HM & Hshape & Hrows).
  exists m. split_and!; [done | done | |].
  - eapply Forall_impl; [exact Hrows |]. by intros row [? _].
  - intros key c (i & row & _ & Hrow & ->)%elem_of_pool_candidates.
    apply list_elem_of_filter in Hrow as [_ Hrow].
    by apply (proj1 (Forall_forall _ _) Hrows) in Hrow as [_ ?].
Qed.

Lemma lookup_elem_of_valid (l : list Z) (i : nat) (c : Z) : l !! i = Some c -> c ∈ l.
Proof. intros H. apply list_elem_of_lookup. eauto. Qed.

(** On a well-formed model whose stream has a position that is not the
    sentinel, a prediction returns a word of the vocabulary after exactly
    one draw. *)
Lemma next_word_ok (self : ShakespeareMarkov) (key_words : list string) (g : rng_state) :
  well_formed self -> valid_tokens self <> [] -> uniform_draws g ->
  exists w c,
    next_word self key_words g = Ok (w, snd (next_draw g)) /\
    w ∈ vocab self /\
    id_to_word self !! c = Some w /\
    c ∈ valid_tokens self /\
    (forall m, M self = Some m ->
       pool_candidates (mlag self) (arows m) (key_ids_of self key_words) = [] ->
       random_choice (valid_tokens self) g = Ok (c, snd (next_draw g))).
Proof.
  intros Hwf Hvalid Hg.
  destruct (well_formed_table self Hwf) as (m & HM & Hshape & Hwidths & Hpool).
  pose proof (key_ids_of_length self key_words (wf_order _ Hwf)) as Hkey.
  destruct (decide (pool_candidates (mlag self) (arows m) (key_ids_of self key_words) = []))
    as [Hnil|Hne].
  - destruct (next_word_fallback self m key_words HM Hshape Hwidths Hkey g Hg Hnil Hvalid)
      as (c & Hc & Hchoice & Hnext).
    destruct (well_formed_word_of_id self c Hwf Hc) as (w & Hw & Hi2w & HwV).
    exists w, c. rewrite Hnext. unfold lift. rewrite Hw. split_and!; [done..|].
    intros m' HM' _. done.
  - destruct (next_word_weighted self m key_words HM Hshape Hwidths Hkey g Hg Hne)
      as (idx & c & Hc & _ & _ & Hnext).
    assert (c ∈ valid_tokens self) as Hcv by (eapply Hpool, lookup_elem_of_valid, Hc).
    destruct (well_formed_word_of_id self c Hwf Hcv) as (w & Hw & Hi2w & HwV).
    exists w, c. rewrite Hnext. unfold lift. rewrite Hw. split_and!; [done..|].
    intros m' HM'. rewrite HM in HM'. injection HM' as <-. done.
Qed.

(** C3: on a loaded model, a non-empty table implies that the stream has
    a position that is not the sentinel (the table is made of windows of
    the stream whose target is not the sentinel); and as soon as the stream
    has such a position, hence in particular when the table is non-empty,
    a prediction never raises and returns a word of the vocabulary: the
    word of an id that occurs in the stream and is not the sentinel. When
    no row matches at any level, that id is the one drawn uniformly from
    the non-sentinel positions of the stream. *)
Theorem next_word_never_fails (mlag0 : nat) (k : Z) (words : list string)
    (self : ShakespeareMarkov) :
  load_model mlag0 k words = Ok self ->
  (forall m, M self = Some m -> arows m <> [] -> valid_tokens self <> []) /\
  (valid_tokens self <> [] ->
   forall recentWords g, uniform_draws g ->
   exists w c,
     next_word self recentWords g = Ok (w, snd (next_draw g)) /\
     w ∈ vocab self /\
     id_to_word self !! c = Some w /\
     c ∈ tokens self /\ c <> (-1)%Z /\
     (forall m, M self = Some m ->
        pool_candidates (mlag self) (arows m) (key_ids_of self recentWords) = [] ->
        random_choice (valid_tokens self) g = Ok (c, snd (next_draw g)))).
Proof.
  intros Hload. pose proof (load_model_well_formed _ _ _ _ Hload) as Hwf.
  split.
  - intros m. by apply table_nonempty_valid_tokens.
  - intros Hvalid recentWords g Hg.
    destruct (next_word_ok self recentWords g Hwf Hvalid Hg)
      as (w & c & Hnext & Hw & Hi2w & [Hc Hne]%elem_of_valid_tokens & Hfb).
    exists w, c. split_and!; done.
Qed.
(** * The sentence loop *)

Lemma uniform_draws_next (g : rng_state) :
  uniform_draws g -> uniform_draws (snd (next_draw g)).
Proof. done. Qed.

Lemma loop_cond_false (s : loop_state) :
  loop_cond s = false <-> current_token s = "."%string \/ 50 <= count s.
Proof.
  unfold loop_cond. rewrite andb_false_iff, negb_false_iff, bool_decide_eq_true, Nat.ltb_ge.
  tauto.
Qed.

Lemma loop_cond_true (s : loop_state) :
  loop_cond s = true <-> current_token s <> "."%string /\ count s < 50.
Proof.
  unfold loop_cond. rewrite andb_true_iff, negb_true_iff, bool_decide_eq_false, Nat.ltb_lt.
  tauto.
Qed.

Lemma loop_inv_init (self : ShakespeareMarkov) (start_word : string) :
  start_word ∈ vocab self -> loop_inv self start_word (mk_loop [start_word] start_word 0).
Proof.
  intros Hs. constructor; cbn; [lia | done | done | | by repeat constructor].
  exists []. by split.
Qed.

Lemma loop_inv_step (self : ShakespeareMarkov) (start_word : string) (s : loop_state)
    (next_w : string) :
  loop_inv self start_word s -> loop_cond s = true -> next_w ∈ vocab self ->
  loop_inv self start_word (mk_loop (generated s ++ [next_w]) next_w (count s + 1)).
Proof.
  intros [Hc Hl Hh (pre & Hgen & Hpre) Hv] [Hne Hlt]%loop_cond_true Hw.
  constructor; cbn.
  - lia.
  - rewrite length_app. simpl. lia.
  - destruct (generated s); [done | done].
  - exists (generated s). split; [done |]. rewrite Hgen.
    apply Forall_app. split; [done | by repeat constructor].
  - apply Forall_app. split; [done | by repeat constructor].
Qed.

Section loop.
Variables (self : ShakespeareMarkov) (start_word : string).
Hypothesis Hwf : well_formed self.
Hypothesis Hvalid : valid_tokens self <> [].

(** The loop reaches its exit within [50 - count + 1] tests, drawing one
    number per iteration. *)
Lemma while_loop_exits (n : nat) :
  forall (fuel : nat) (s : loop_state) (g : rng_state),
  count s + n = 50 -> n < fuel ->
  uniform_draws g -> loop_inv self start_word s ->
  exists s' g',
    while_loop fuel loop_cond (loop_body self) s g = Ok (Some s', g') /\
    loop_inv self start_word s' /\ loop_cond s' = false /\
    draws g' = draws g /\ pos g' + count s = pos g + count s'.
Proof.
  induction n as [|n IH]; intros fuel s g Hn Hfuel Hg Hinv.
  - destruct fuel as [|fuel]; [lia |]. cbn [while_loop].
    assert (loop_cond s = false) as Hc by (apply loop_cond_false; right; lia).
    rewrite Hc. exists s, g. by split_and!.
  - destruct fuel as [|fuel]; [lia |]. cbn [while_loop].
    destruct (loop_cond s) eqn:Hc.
    2:{ exists s, g. by split_and!. }
    destruct (next_word_ok self (generated s) g Hwf Hvalid Hg)
      as (w & c & Hnext & Hw & _).
    unfold bind, loop_body at 1. unfold bind at 1. rewrite Hnext. cbn [ret].
    set (s1 := mk_loop (generated s ++ [w]) w (count s + 1)).
    destruct (IH fuel s1 (snd (next_draw g))) as (s' & g' & Hrun & Hinv' & Hc' & Hd & Hp).
    + subst s1. cbn. lia.
    + lia.
    + by apply uniform_draws_next.
    + by apply loop_inv_step.
    + exists s', g'. split_and!; [done | done | done | done |].
      subst s1. cbn in Hp. lia.
Qed.
End loop.

(** Any word a prediction returns is a word of the vocabulary. *)
Lemma next_word_in_vocab (self : ShakespeareMarkov) (key_words : list string)
    (g g' : rng_state) (w : string) :
  well_formed self -> next_word self key_words g = Ok (w, g') -> w ∈ vocab self.
Proof.
  intros Hwf. unfold next_word, bind.
  destruct (lift (backoff_pool self (key_ids_of self key_words)) g) as [[pool g1]|]; [| done].
  assert (forall c g2, lift (word_of_id self c) g2 = Ok (w, g') -> w ∈ vocab self) as Hword.
  { intros c g2. unfold lift, word_of_id.
    destruct (id_to_word self !! c) as [w'|] eqn:Hc; [| done]. intros [= -> _].
    apply (wf_id_to_word _ Hwf) in Hc as (i & Hi & _). apply list_elem_of_lookup. eauto. }
  destruct (fst pool).
  - destruct (random_choice (valid_tokens self) g1) as [[c g2]|]; [| done]. apply Hword.
  - destruct (random_choice_p _ _ g1) as [[c g2]|]; [| done]. apply Hword.
Qed.

Lemma while_loop_vocab (self : ShakespeareMarkov) (fuel : nat) :
  well_formed self ->
  forall (s s' : loop_state) (g g' : rng_state),
  Forall (fun t => t ∈ vocab self) (generated s) ->
  while_loop fuel loop_cond (loop_body self) s g = Ok (Some s', g') ->
  Forall (fun t => t ∈ vocab self) (generated s').
Proof.
  intros Hwf. induction fuel as [|fuel IH]; intros s s' g g' Hs; cbn [while_loop]; [done |].
  destruct (loop_cond s).
  2:{ by intros [= <- _]. }
  unfold bind, loop_body at 1. unfold bind at 1.
  destruct (next_word self (generated s) g) as [[w g1]|] eqn:Hnext; [| done].
  cbn [ret]. apply IH. cbn.
  apply Forall_app. split; [done |]. repeat constructor.
  by eapply next_word_in_vocab.
Qed.

(** C4: on a loaded model and a start word of the vocabulary, the loop
    exits after at most 50 predictions: the token list starts with the
    start word, has at most 51 tokens, one per prediction after the first,
    none of them "." except possibly the last, and is shorter than 51 only
    if it ends with ".". *)
Theorem generate_terminates (mlag0 : nat) (k : Z) (words : list string)
    (self : ShakespeareMarkov) (start_word : string) (fuel : nat) (g : rng_state) :
  load_model mlag0 k words = Ok self ->
  is_Some (word_to_id self !! start_word) ->
  uniform_draws g ->
  50 < fuel ->
  exists toks g',
    generate_tokens fuel self start_word g = Ok (Some toks, g') /\
    generate_sentence fuel self start_word g = Ok (Some (detokenize toks), g') /\
    head toks = Some start_word /\
    length toks <= 51 /\
    pos g' = pos g + (length toks - 1) /\
    (exists pre last, toks = pre ++ [last] /\
       Forall (fun t => t <> "."%string) pre /\
       (last = "."%string \/ length toks = 51)).
Proof.
  intros Hload Hstart Hg Hfuel.
  pose proof (load_model_well_formed _ _ _ _ Hload) as Hwf.
  assert (start_word ∈ vocab self) as HsV by (by apply well_formed_words).
  pose proof (load_model_valid_tokens _ _ _ _ _ Hload HsV) as Hvalid.
  destruct (while_loop_exits self start_word Hwf Hvalid 50 fuel
              (mk_loop [start_word] start_word 0) g)
    as (s' & g' & Hrun & [Hc Hl Hh (pre & Hgen & Hpre) _] & Hexit & _ & Hp);
    [done | done | done | by apply loop_inv_init |].
  exists (generated s'), g'.
  assert (generate_tokens fuel self start_word g = Ok (Some (generated s'), g')) as Htoks.
  { unfold generate_tokens, bind. by rewrite Hrun. }
  split_and!.
  - done.
  - unfold generate_sentence. destruct Hstart as [z ->]. unfold bind. by rewrite Htoks.
  - done.
  - lia.
  - cbn in Hp. lia.
  - exists pre, (current_token s'). split_and!; [done | done |].
    apply loop_cond_false in Hexit as [?|?]; [by left | right; lia].
Qed.
(** * The unknown start word *)

Lemma lower_char_not_upper (c : ascii) : is_upper_char (lower_char c) = false.
Proof. destruct c as [[] [] [] [] [] [] [] []]; reflexivity. Qed.

Lemma lower_no_upper (s : string) : no_upper (lower s).
Proof.
  unfold no_upper. induction s as [|c s IH]; [done |]. cbn [lower str_all].
  by rewrite lower_char_not_upper, IH.
Qed.

Lemma clean_words_no_upper (words : list string) (w : string) :
  w ∈ clean_words words -> no_upper w.
Proof.
  unfold clean_words. rewrite clean_loop_from, app_nil_l.
  intros (x & Hx & Hw)%list_elem_of_omap.
  apply clean_word_kept in Hw as ->. apply lower_no_upper.
Qed.

Lemma str_all_app (p : ascii -> bool) (s t : string) :
  str_all p (String.append s t) = str_all p s && str_all p t.
Proof.
  induction s as [|c s IH]; [done |]. rewrite append_cons. cbn [str_all].
  by rewrite IH, andb_assoc.
Qed.

Lemma str_all_join (p : ascii -> bool) (l : list string) :
  p " "%char = true -> Forall (fun t => str_all p t = true) l ->
  str_all p (join " " l) = true.
Proof.
  intros Hp Hl. destruct l as [|t ts]; [done |].
  apply Forall_cons in Hl as [Ht Hts]. rewrite join_cons, str_all_app, Ht. cbn [andb].
  induction Hts as [|u ts Hu Hts IH]; [done |].
  cbn [map concat_str fold_right]. fold (concat_str (map (String.append " ") ts)).
  rewrite !str_all_app, Hu, IH. cbn [str_all]. by rewrite Hp.
Qed.

Lemma str_all_delete (p q : ascii -> bool) (s : string) :
  str_all p s = true -> str_all p (delete_space_before q s) = true.
Proof.
  induction s as [|c s IH]; [done |]. cbn [str_all]. intros [Hc Hs]%andb_prop.
  destruct s as [|d s]; [cbn; by rewrite Hc |].
  rewrite delete_step. destruct (Ascii.eqb c " " && q d); [by apply IH |].
  cbn [str_all]. rewrite Hc. by apply IH.
Qed.

Lemma detokenize_no_upper (toks : list string) :
  Forall no_upper toks -> detokenize toks <> unknown_start_word.
Proof.
  intros Htoks E.
  assert (no_upper (detokenize toks)) as Hno.
  { rewrite detokenize_delete. apply str_all_delete, str_all_join; [done | done]. }
  rewrite E in Hno. discriminate.
Qed.

Lemma load_model_vocab_no_upper (mlag0 : nat) (k : Z) (words : list string)
    (self : ShakespeareMarkov) :
  load_model mlag0 k words = Ok self -> Forall no_upper (vocab self).
Proof.
  intros (_ & HV & _)%load_model_inv. apply Forall_forall. intros w Hw.
  apply (clean_words_no_upper words). rewrite HV in Hw. by apply top_words_elem_of in Hw.
Qed.

(** C5: a start word that is not a key of [word_to_id] is answered with
    the fixed message, returned as a value: nothing is raised, nothing is
    drawn from the generator, and the answer does not depend on the
    generator; on a loaded model a start word of the vocabulary is never
    answered with that message, whatever the draws. *)
Theorem generate_unknown_start_word :
  (forall fuel self start_word g,
     word_to_id self !! start_word = None ->
     generate_sentence fuel self start_word g = Ok (Some unknown_start_word, g)) /\
  (forall mlag0 k words self fuel start_word g g',
     load_model mlag0 k words = Ok self ->
     is_Some (word_to_id self !! start_word) ->
     generate_sentence fuel self start_word g <> Ok (Some unknown_start_word, g')).
Proof.
  split; [intros; by apply generate_unknown |].
  intros mlag0 k words self fuel start_word g g' Hload Hstart.
  pose proof (load_model_well_formed _ _ _ _ Hload) as Hwf.
  pose proof (load_model_vocab_no_upper _ _ _ _ Hload) as Hlow.
  assert (start_word ∈ vocab self) as HsV by (by apply well_formed_words).
  unfold generate_sentence. destruct Hstart as [z ->].
  unfold bind at 1, generate_tokens, bind at 1.
  destruct (while_loop fuel loop_cond (loop_body self) (mk_loop [start_word] start_word 0) g)
    as [[[s'|] g1]|] eqn:Hrun; cbn; [| done | done].
  intros [= E _]. revert E. apply detokenize_no_upper.
  apply while_loop_vocab in Hrun; [| done | by repeat constructor].
  eapply Forall_impl; [exact Hrun |]. intros t Ht.
  by apply (proj1 (Forall_forall _ _) Hlow).
Qed.
(** * The small corpus, run *)

Lemma example_model_loaded : load_model 2 1000 example_words = Ok example_model.
Proof. reflexivity. Qed.

Lemma zero_rng_uniform : uniform_draws zero_rng.
Proof. intros n. split; [apply Qle_refl | reflexivity]. Qed.

Example example_vocab :
  vocab example_model = ["is"; "."; "romeo"; "here"; "juliet"; "there"]%string.
Proof. reflexivity. Qed.

Example example_tokens : tokens example_model = [2; 0; 3; 1; 4; 0; 5; 1]%Z.
Proof. reflexivity. Qed.

Example example_table :
  M example_model =
  Some (mk_ndarray [[2; 0; 3]; [0; 3; 1]; [3; 1; 4]; [1; 4; 0]; [4; 0; 5]; [0; 5; 1]]%Z 3).
Proof. reflexivity. Qed.

Example example_sentence :
  generate_sentence 51 example_model "juliet" zero_rng =
  Ok (Some "juliet is there."%string, mk_rng (fun _ => 0%Q) 3).
Proof. vm_compute. reflexivity. Qed.



Lemma next_word_never_fails_witness :
  valid_tokens example_model <> [] /\
  exists w, next_word example_model ["juliet"; "is"]%string zero_rng
            = Ok (w, snd (next_draw zero_rng)) /\ w ∈ vocab example_model.
Proof.
  destruct (next_word_never_fails 2 1000 example_words example_model) as [Htable Hnext].
  - reflexivity.
  - assert (valid_tokens example_model <> []) as Hvalid.
    { eapply Htable; [reflexivity | discriminate]. }
    split; [exact Hvalid |].
    destruct (Hnext Hvalid ["juliet"; "is"]%string zero_rng) as (w & c & H1 & H2 & _).
    + intros n. split; [apply Qle_refl | reflexivity].
    + exists w. split; [exact H1 | exact H2].
Defined.

(** The converse of the first part of [next_word_never_fails] does not
    hold: with one retained word that never follows itself every window
    is filtered out, and the table is empty although the stream has
    positions that are not the sentinel. Predictions then always take the
    fallback. *)
Example empty_table_with_valid_tokens :
  exists self m,
    load_model 1 1 ["a"; "b"; "a"; "b"]%string = Ok self /\
    M self = Some m /\ arows m = [] /\ valid_tokens self = [0; 0]%Z.
Proof. do 2 eexists. split; [reflexivity |]. split; [reflexivity |]. split; reflexivity. Qed.

Lemma generate_terminates_witness :
  exists toks g',
    generate_tokens 51 example_model "juliet" zero_rng = Ok (Some toks, g') /\
    length toks <= 51 /\ pos g' = pos zero_rng + (length toks - 1).
Proof.
  destruct (generate_terminates 2 1000 example_words example_model "juliet" 51 zero_rng)
    as (toks & g' & H1 & _ & _ & H2 & H3 & _).
  - reflexivity.
  - exists 4%Z. reflexivity.
  - intros n. split; [apply Qle_refl | reflexivity].
  - lia.
  - exists toks, g'. split; [exact H1 |]. split; [exact H2 | exact H3].
Defined.

Lemma generate_unknown_start_word_witness :
  generate_sentence 51 example_model "unknownword" zero_rng
    = Ok (Some unknown_start_word, zero_rng) /\
  generate_sentence 51 example_model "romeo" zero_rng
    <> Ok (Some unknown_start_word, zero_rng).
Proof.
  destruct generate_unknown_start_word as [Habsent Hpresent]. split.
  - apply Habsent. reflexivity.
  - apply (Hpresent 2 1000%Z example_words).
    + reflexivity.
    + exists 2%Z. reflexivity.
Defined.

Lemma vocabulary_top_k_witness :
  exists self',
    load_and_process (init 2 3) example_words = Ok self' /\
    NoDup (vocab self') /\ (Z.of_nat (length (vocab self')) <= 3)%Z.
Proof.
  destruct (vocabulary_top_k (init 2 3) example_words) as (self' & Hload & Hnd & _ & Hlen & _).
  - simpl. lia.
  - exists self'. split; [exact Hload |]. split; [exact Hnd | exact Hlen].
Defined.

Example example_top_three :
  exists self', load_and_process (init 2 3) example_words = Ok self' /\
    vocab self' = ["is"; "."; "romeo"]%string /\
    tokens self' = [2; 0; -1; 1; -1; 0; -1; 1]%Z.
Proof. eexists. split; [reflexivity |]. split; reflexivity. Qed.

(** * The stream and the table of a loaded model *)

Lemma built_tokens_range (V : list string) (ws : list string) (z : Z) :
  NoDup V ->
  z ∈ map (fun w => default (-1)%Z (build_word_to_id V !! w)) ws ->
  (-1 <= z < Z.of_nat (length V))%Z.
Proof.
  intros HV (w & -> & _)%list_elem_of_fmap.
  destruct (build_word_to_id V !! w) as [z|] eqn:Hz; simpl; [| lia].
  apply build_word_to_id_lookup in Hz as (i & Hi & ->); [| done].
  apply lookup_lt_Some in Hi. lia.
Qed.

Lemma load_and_process_inv (self self' : ShakespeareMarkov) (words : list string) :
  load_and_process self words = Ok self' ->
  vocab self' = map fst (take (Z.to_nat (top_k self)) (ranking (clean_words words))) /\
  NoDup (vocab self') /\
  word_to_id self' = build_word_to_id (vocab self') /\
  id_to_word self' = build_id_to_word (vocab self') /\
  tokens self' = map (fun w => default (-1)%Z (word_to_id self' !! w)) (clean_words words).
Proof.
  unfold load_and_process. intros [= <-]. cbn [vocab word_to_id id_to_word tokens].
  rewrite most_common_ranking. split_and!; try done. apply top_words_NoDup.
Qed.

(** X1: the stream decodes back to the corpus. At every position whose
    token is not the sentinel, [id_to_word] of the token is the cleaned word
    at that position; the sentinel stands exactly where the word is not in
    the vocabulary; and every token lies between -1 and |vocab| - 1. *)
Theorem stream_decodes (self self' : ShakespeareMarkov) (words : list string) :
  load_and_process self words = Ok self' ->
  length (tokens self') = length (clean_words words) /\
  (forall p w z, clean_words words !! p = Some w -> tokens self' !! p = Some z ->
     (z <> (-1)%Z -> id_to_word self' !! z = Some w) /\
     (z = (-1)%Z <-> w ∉ vocab self')) /\
  (forall z, z ∈ tokens self' -> (-1 <= z < Z.of_nat (length (vocab self')))%Z).
Proof.
  intros (HV & Hnd & Hw2i & Hi2w & Htok)%load_and_process_inv.
  split; [by rewrite Htok, length_map |]. split.
  - intros p w z Hp Hz. rewrite Htok in Hz.
    rewrite (tokens_lookup _ _ _ _ Hp) in Hz. injection Hz as <-.
    rewrite Hw2i, Hi2w.
    destruct (build_word_to_id (vocab self') !! w) as [z|] eqn:Hz; simpl.
    + pose proof Hz as (i & Hi & ->)%build_word_to_id_lookup; [| done]. split.
      * intros _. apply build_id_to_word_lookup. eauto.
      * split; [lia |]. intros Hnin. exfalso. apply Hnin, list_elem_of_lookup. eauto.
    + split; [done |]. split; [| done]. intros _ (i & Hi)%list_elem_of_lookup.
      assert (build_word_to_id (vocab self') !! w = Some (Z.of_nat i)) as Hsome
        by (apply build_word_to_id_lookup; eauto).
      congruence.
  - intros z. rewrite Htok, Hw2i. by apply built_tokens_range.
Qed.

Lemma stream_decodes_witness :
  exists self',
    load_and_process (init 2 3) example_words = Ok self' /\
    length (tokens self') = 8 /\
    (forall z, z ∈ tokens self' -> (-1 <= z < 3)%Z).
Proof.
  eexists. split; [reflexivity |].
  destruct (stream_decodes (init 2 3) _ example_words eq_refl) as (Hlen & _ & Hrange).
  split; [exact Hlen | exact Hrange].
Defined.

(** ** Start-up *)

Lemma load_model_unfold (mlag0 : nat) (k : Z) (words : list string) :
  exists self1,
    load_and_process (init mlag0 k) words = Ok self1 /\
    mlag self1 = mlag0 /\ length (tokens self1) = length (clean_words words) /\
    load_model mlag0 k words = build_matrix self1.
Proof.
  unfold load_model, load_and_process. eexists. split; [reflexivity |].
  cbn [bind_result mlag tokens init]. by rewrite length_map.
Qed.

Lemma build_matrix_order_zero (self : ShakespeareMarkov) :
  mlag self = 0 -> 1 <= length (tokens self) -> build_matrix self = Raise IndexError.
Proof.
  intros E Hn. unfold build_matrix.
  rewrite sliding_window_view_windows by lia. by rewrite E.
Qed.

(** X2: how start-up ends. It succeeds exactly when the context order is
    at least 1 and the cleaning loop kept at least [mlag + 1] words; with
    fewer words [sliding_window_view] refuses the window ([ValueError]);
    with context order 0 and at least one word the second-to-last column
    does not exist ([IndexError]). The vocabulary size plays no part. *)
Theorem load_model_outcome (mlag0 : nat) (k : Z) (words : list string) :
  (is_ok (load_model mlag0 k words) = true <->
     1 <= mlag0 /\ mlag0 + 1 <= length (clean_words words)) /\
  (load_model mlag0 k words = Raise ValueError <->
     length (clean_words words) < mlag0 + 1) /\
  (load_model mlag0 k words = Raise IndexError <->
     mlag0 = 0 /\ 1 <= length (clean_words words)).
Proof.
  destruct (load_model_unfold mlag0 k words) as (self1 & _ & Hm & Hn & ->).
  destruct (Nat.lt_ge_cases (length (clean_words words)) (mlag0 + 1)) as [Hlt|Hge].
  { rewrite build_matrix_short by lia. cbn. split_and!; split; try done; try lia. }
  destruct (decide (mlag0 = 0)) as [E|E].
  { rewrite build_matrix_order_zero by lia. cbn. split_and!; split; try done; try lia. }
  rewrite build_matrix_ok by lia. cbn. split_and!; split; try done; try lia.
Qed.

Lemma load_model_outcome_witness :
  is_ok (load_model 2 1000 example_words) = true /\
  load_model 8 1000 example_words = Raise ValueError /\
  load_model 0 1000 example_words = Raise IndexError.
Proof.
  destruct (load_model_outcome 2 1000 example_words) as ([_ H1] & _ & _).
  destruct (load_model_outcome 8 1000 example_words) as (_ & [_ H2] & _).
  destruct (load_model_outcome 0 1000 example_words) as (_ & _ & [_ H3]).
  split; [apply H1; vm_compute; lia |].
  split; [apply H2; vm_compute; lia | apply H3; vm_compute; split; [reflexivity | lia]].
Defined.

(** ** The rows of the table *)

Lemma window_entries (mlag : nat) (stream row : list Z) (x : Z) :
  row ∈ windows mlag stream -> x ∈ row -> x ∈ stream.
Proof.
  unfold windows. intros (s & -> & _)%list_elem_of_fmap Hx.
  apply elem_of_take in Hx as (i & Hi & _). rewrite lookup_drop in Hi.
  apply list_elem_of_lookup. eauto.
Qed.

Lemma window_column (mlag j : nat) (stream row : list Z) :
  row ∈ windows mlag stream -> j <= mlag -> nth j row 0%Z ∈ row.
Proof.
  intros Hrow Hj. apply windows_width in Hrow.
  destruct (row !! j) as [x|] eqn:Hx.
  - rewrite (nth_lookup_Some _ _ _ _ Hx). apply list_elem_of_lookup. eauto.
  - apply lookup_ge_None in Hx. lia.
Qed.

Lemma elem_of_windows (mlag : nat) (stream row : list Z) :
  row ∈ windows mlag stream <->
  exists s, s + mlag < length stream /\ row = take (mlag + 1) (drop s stream).
Proof.
  unfold windows. rewrite list_elem_of_fmap. setoid_rewrite elem_of_seq.
  split; intros (s & H1 & H2); exists s; split; (done || lia).
Qed.

(** X3: the invariant of the table. After start-up the table has
    [mlag + 1] columns and at most [n - mlag] rows; every row is a window
    of the stream (consecutive tokens), so each of its entries is the
    sentinel or an id below |vocab|; and its last two columns, the target
    and the most recent context token, are ids of the vocabulary, never
    the sentinel. *)
Theorem table_invariant (mlag0 : nat) (k : Z) (words : list string)
    (self : ShakespeareMarkov) :
  load_model mlag0 k words = Ok self ->
  exists m,
    M self = Some m /\ acols m = mlag0 + 1 /\
    length (arows m) <= length (tokens self) - mlag0 /\
    forall row, row ∈ arows m ->
      length row = mlag0 + 1 /\
      (exists s, s + mlag0 < length (tokens self) /\
                 row = take (mlag0 + 1) (drop s (tokens self))) /\
      (forall x, x ∈ row -> (-1 <= x < Z.of_nat (length (vocab self)))%Z) /\
      (0 <= nth mlag0 row 0 < Z.of_nat (length (vocab self)))%Z /\
      (0 <= nth (mlag0 - 1) row 0 < Z.of_nat (length (vocab self)))%Z /\
      is_Some (id_to_word self !! nth mlag0 row 0%Z) /\
      is_Some (id_to_word self !! nth (mlag0 - 1) row 0%Z).
Proof.
  intros Hload. pose proof (load_model_well_formed _ _ _ _ Hload) as Hwf.
  apply load_model_inv in Hload as (Hmlag & HV & Hw2i & Hi2w & Htok & Hm & Hn & HM).
  assert (forall z, z ∈ tokens self -> (-1 <= z < Z.of_nat (length (vocab self)))%Z) as Hrange.
  { intros z. rewrite Htok, Hw2i. apply built_tokens_range, (wf_vocab _ Hwf). }
  eexists. split; [exact HM |]. cbn [acols arows]. split; [done |].
  split.
  { etransitivity; [apply length_filter |]. by rewrite windows_length. }
  intros row [[Hk1 Hk2] Hrow]%list_elem_of_filter.
  assert (forall j, j <= mlag0 -> nth j row 0%Z <> (-1)%Z ->
            (0 <= nth j row 0 < Z.of_nat (length (vocab self)))%Z /\
            is_Some (id_to_word self !! nth j row 0%Z)) as Hcol.
  { intros j Hj Hne.
    assert (nth j row 0%Z ∈ tokens self) as Hin
      by (eapply window_entries; [exact Hrow | by eapply window_column]).
    split; [specialize (Hrange _ Hin); lia |].
    destruct (wf_tokens _ Hwf _ Hin); done. }
  destruct (Hcol mlag0) as [? ?]; [lia | done |].
  destruct (Hcol (mlag0 - 1)) as [? ?]; [lia | done |].
  split_and!; try done; try lia.
  - by apply windows_width in Hrow.
  - by apply elem_of_windows.
  - intros x Hx. apply Hrange. by eapply window_entries.
Qed.

Lemma table_invariant_witness :
  exists m, M example_model = Some m /\ acols m = 3 /\ length (arows m) <= 6.
Proof.
  destruct (table_invariant 2 1000 example_words example_model eq_refl)
    as (m & HM & Hc & Hr & _).
  exists m. split; [exact HM |]. split; [exact Hc | exact Hr].
Defined.

Lemma filter_all {A} (P : A -> Prop) `{!forall x, Decision (P x)} (l : list A) :
  Forall P l -> filter P l = l.
Proof.
  induction 1 as [|x l Hx Hl IH]; [done |]. by rewrite filter_cons, decide_True, IH.
Qed.

(** X4: a vocabulary large enough for every distinct word. When [top_k]
    is at least the number of distinct cleaned words, every word gets an
    id, the stream holds no sentinel, and no window is filtered out: the
    table is the list of all [n - mlag] windows. *)
Theorem full_vocabulary (mlag0 : nat) (k : Z) (words : list string)
    (self : ShakespeareMarkov) :
  load_model mlag0 k words = Ok self ->
  (Z.of_nat (size (list_to_set (clean_words words) : gset string)) <= k)%Z ->
  (forall w, w ∈ clean_words words -> w ∈ vocab self) /\
  ((-1)%Z ∉ tokens self) /\
  valid_tokens self = tokens self /\
  exists m, M self = Some m /\
    arows m = windows mlag0 (tokens self) /\
    length (arows m) = length (clean_words words) - mlag0.
Proof.
  intros Hload Hk. pose proof (load_model_well_formed _ _ _ _ Hload) as Hwf.
  apply load_model_inv in Hload as (Hmlag & HV & Hw2i & Hi2w & Htok & Hm & Hn & HM).
  assert (forall w, w ∈ clean_words words -> w ∈ vocab self) as Hall.
  { intros w Hw. rewrite HV, take_ge by (rewrite ranking_length; lia).
    apply list_elem_of_fmap. exists (w, freq w (clean_words words)).
    split; [done |]. by apply elem_of_ranking. }
  assert ((-1)%Z ∉ tokens self) as Hno.
  { rewrite Htok. intros (w & Hz & Hw)%list_elem_of_fmap.
    apply Hall, (well_formed_words _ _ Hwf) in Hw as [z Hz'].
    rewrite Hz' in Hz. simpl in Hz. subst z.
    apply (wf_word_to_id _ Hwf) in Hz' as (i & _ & ?). lia. }
  assert (filter (kept mlag0) (windows mlag0 (tokens self)) = windows mlag0 (tokens self))
    as Hfilter.
  { apply filter_all, Forall_forall. intros row Hrow.
    split; intros E; apply Hno; rewrite <- E;
      (eapply window_entries; [exact Hrow | eapply window_column; [exact Hrow | lia]]). }
  split_and!; [done | done | |].
  - unfold valid_tokens. apply filter_all, Forall_forall. intros z Hz ->. done.
  - eexists. split; [exact HM |]. cbn [arows]. rewrite Hfilter. split; [done |].
    by rewrite windows_length, Htok, length_map.
Qed.

Lemma full_vocabulary_witness :
  tokens example_model = valid_tokens example_model /\
  exists m, M example_model = Some m /\ length (arows m) = 6.
Proof.
  destruct (full_vocabulary 2 1000 example_words example_model eq_refl)
    as (_ & _ & Hv & m & HM & _ & Hlen).
  - vm_compute. discriminate.
  - split; [by rewrite Hv |]. exists m. split; [exact HM | exact Hlen].
Defined.

(** * The context of a prediction *)

Lemma key_ids_of_known (self : ShakespeareMarkov) (key_words : list string) :
  omap (fun k => word_to_id self !! k)
       (filter (fun k => is_Some (word_to_id self !! k)) key_words) =
  omap (fun k => word_to_id self !! k) key_words.
Proof.
  induction key_words as [|k ks IH]; [done |]. rewrite filter_cons.
  destruct (word_to_id self !! k) as [z|] eqn:Hk.
  - rewrite decide_True by eauto. simpl. rewrite Hk. f_equal. exact IH.
  - rewrite decide_False by (by intros [? ?]). simpl. rewrite Hk. exact IH.
Qed.

Lemma length_known (self : ShakespeareMarkov) (key_words : list string) :
  length (omap (fun k => word_to_id self !! k) key_words) =
  length (filter (fun k => is_Some (word_to_id self !! k)) key_words).
Proof.
  induction key_words as [|k ks IH]; [done |]. rewrite filter_cons.
  destruct (word_to_id self !! k) as [z|] eqn:Hk.
  - rewrite decide_True by eauto. simpl. rewrite Hk. simpl. f_equal. exact IH.
  - rewrite decide_False by (by intros [? ?]). simpl. rewrite Hk. exact IH.
Qed.

Lemma next_word_key (self : ShakespeareMarkov) (kw kw' : list string) (g : rng_state) :
  key_ids_of self kw = key_ids_of self kw' -> next_word self kw g = next_word self kw' g.
Proof. intros E. unfold next_word. by rewrite E. Qed.

Lemma key_ids_of_suffix (self : ShakespeareMarkov) (pre ctx : list string) :
  1 <= mlag self ->
  mlag self <= length (omap (fun k => word_to_id self !! k) ctx) ->
  key_ids_of self (pre ++ ctx) = key_ids_of self ctx.
Proof.
  intros Hm Hctx. unfold key_ids_of. rewrite omap_app.
  set (a := omap (fun k => word_to_id self !! k) pre).
  set (b := omap (fun k => word_to_id self !! k) ctx) in *.
  assert (py_slice_from (- Z.of_nat (mlag self)) (a ++ b) = drop (length b - mlag self) b) as E.
  { rewrite py_slice_from_end by (rewrite length_app; lia).
    rewrite length_app, drop_app_ge by lia. f_equal. lia. }
  destruct (Nat.ltb_spec (mlag self) (length (a ++ b))) as [H1|H1];
  destruct (Nat.ltb_spec (mlag self) (length b)) as [H2|H2].
  - rewrite E. by rewrite py_slice_from_end by lia.
  - rewrite E. replace (length b - mlag self) with 0 by lia. done.
  - rewrite length_app in H1. lia.
  - rewrite length_app in H1. assert (length a = 0) as Ha by lia.
    apply length_zero_iff_nil in Ha. by rewrite Ha.
Qed.

(** X5: a prediction looks only at the vocabulary words of its context,
    and only at the last [mlag] of them. Words that are not in the
    vocabulary can be dropped from the context, and, for a context order
    of at least 1, whatever comes before a piece of context that already
    holds [mlag] vocabulary words can be dropped too, without changing
    the outcome. *)
Theorem next_word_context (self : ShakespeareMarkov) (ctx : list string) (g : rng_state) :
  next_word self ctx g =
    next_word self (filter (fun k => is_Some (word_to_id self !! k)) ctx) g /\
  (1 <= mlag self ->
   mlag self <= length (filter (fun k => is_Some (word_to_id self !! k)) ctx) ->
   forall pre, next_word self (pre ++ ctx) g = next_word self ctx g).
Proof.
  split.
  - apply next_word_key. unfold key_ids_of. by rewrite key_ids_of_known.
  - intros Hm Hctx pre. apply next_word_key, key_ids_of_suffix; [done |].
    by rewrite length_known.
Qed.

Lemma next_word_context_witness :
  next_word example_model ["zounds"; "romeo"; "x"; "juliet"; "is"]%string zero_rng =
  next_word example_model ["juliet"; "is"]%string zero_rng.
Proof.
  destruct (next_word_context example_model ["juliet"; "is"]%string zero_rng) as [_ H].
  apply (H ltac:(vm_compute; lia) ltac:(vm_compute; lia) ["zounds"; "romeo"; "x"]%string).
Defined.

(** ** Predictions without a table, without a known word, without a corpus *)

Lemma range_down_succ (n : nat) : range_down (S n) = S n :: range_down n.
Proof.
  unfold range_down. rewrite seq_S, rev_app_distr. done.
Qed.

Lemma key_ids_of_nil (self : ShakespeareMarkov) (key_words : list string) :
  key_ids_of self key_words = [] <->
  forall k, k ∈ key_words -> word_to_id self !! k = None.
Proof.
  unfold key_ids_of.
  set (ids := omap (fun k => word_to_id self !! k) key_words).
  assert (ids = [] <-> forall k, k ∈ key_words -> word_to_id self !! k = None) as Hids.
  { subst ids. split.
    - intros E k Hk. destruct (word_to_id self !! k) as [z|] eqn:Hz; [| done].
      assert (z ∈ omap (fun k => word_to_id self !! k) key_words) as Hin
        by (apply list_elem_of_omap; eauto).
      rewrite E in Hin. by apply elem_of_nil in Hin.
    - intros Hall. destruct (omap _ key_words) as [|z zs] eqn:E; [done |].
      assert (z ∈ omap (fun k => word_to_id self !! k) key_words) as Hin
        by (rewrite E; apply list_elem_of_here).
      apply list_elem_of_omap in Hin as (k & Hk & Hz). rewrite (Hall k Hk) in Hz. done. }
  rewrite <- Hids.
  destruct (Nat.ltb_spec (mlag self) (length ids)) as [Hlt|Hge]; [| done].
  split; [| intros E; rewrite E in Hlt; simpl in Hlt; lia].
  intros E. apply (f_equal length) in E. unfold py_slice_from in E.
  rewrite length_drop in E. cbn [length] in E. exfalso.
  destruct (decide (mlag self = 0)) as [E0|E0].
  - rewrite E0 in E. change (- Z.of_nat 0)%Z with (Z.of_nat 0) in E.
    rewrite slice_bound_nonneg in E by lia. lia.
  - rewrite slice_bound_from_end in E by lia. lia.
Qed.

Lemma backoff_pool_no_table (self : ShakespeareMarkov) (key : list Z) :
  M self = None -> key <> [] -> backoff_pool self key = Raise TypeError.
Proof.
  intros HM Hkey. unfold backoff_pool.
  destruct key as [|z key]; [done |]. cbn [length]. rewrite range_down_succ.
  cbn [for_each]. unfold backoff_step at 1. by rewrite HM.
Qed.

(** X6: the edge cases of a prediction. A context without any
    vocabulary word never reaches the table: the word is the fallback
    draw from the non-sentinel tokens, whether or not a table exists, and
    the call raises [ValueError] when the stream has no such token. On a
    model whose table has not been built, a context with a vocabulary
    word raises [TypeError]. *)
Theorem next_word_edge_cases (self : ShakespeareMarkov) (key_words : list string)
    (g : rng_state) :
  ((forall k, k ∈ key_words -> word_to_id self !! k = None) ->
     next_word self key_words g =
       bind (random_choice (valid_tokens self)) (fun c => lift (word_of_id self c)) g /\
     (valid_tokens self = [] -> next_word self key_words g = Raise ValueError)) /\
  (M self = None ->
   (exists k, k ∈ key_words /\ is_Some (word_to_id self !! k)) ->
     next_word self key_words g = Raise TypeError).
Proof.
  split.
  - intros Hall. apply (proj2 (key_ids_of_nil _ _)) in Hall.
    assert (next_word self key_words g =
            bind (random_choice (valid_tokens self)) (fun c => lift (word_of_id self c)) g)
      as E.
    { unfold next_word. rewrite Hall. reflexivity. }
    split; [exact E |]. intros Hv. rewrite E, Hv. reflexivity.
  - intros HM (k & Hk & Hz). unfold next_word.
    rewrite backoff_pool_no_table; [done | done |].
    intros Hnil. pose proof (proj1 (key_ids_of_nil _ _) Hnil k Hk) as Hnone.
    rewrite Hnone in Hz. by destruct Hz.
Qed.

Lemma next_word_edge_cases_witness :
  next_word (init 4 1000) ["romeo"]%string zero_rng = Raise ValueError /\
  next_word (mk_model 2 10 ["."%string] {["."%string := 0%Z]} {[0%Z := "."%string]} None [0%Z])
    ["romeo"; "."]%string zero_rng = Raise TypeError.
Proof.
  split.
  - apply (next_word_edge_cases (init 4 1000) ["romeo"]%string zero_rng); [| reflexivity].
    intros k _. reflexivity.
  - apply (next_word_edge_cases _ ["romeo"; "."]%string zero_rng); [reflexivity |].
    exists "."%string. split; [| by exists 0%Z].
    apply list_elem_of_further, list_elem_of_here.
Defined.

(** ** Longer and shorter contexts *)






(** * The endpoint of [main.py] *)




Lemma lifespan_startup_inv (lines : list string)
    (ml_models ml_models' : gmap string ShakespeareMarkov) :
  Main.lifespan_startup lines ml_models = Ok ml_models' ->
  exists model,
    load_model 4 1000 (words_of_lines lines) = Ok model /\
    ml_models' = <["shakespeare"%string := model]> ml_models.
Proof.
  unfold Main.lifespan_startup, load_and_process_lines.
  change (bind_result (load_and_process (init 4 1000) (words_of_lines lines))
            (fun model => bind_result (build_matrix model)
               (fun model => Ok (<["shakespeare"%string := model]> ml_models)))
          = Ok ml_models' -> exists model,
            load_model 4 1000 (words_of_lines lines) = Ok model /\
            ml_models' = <["shakespeare"%string := model]> ml_models).
  unfold load_model.
  destruct (load_and_process (init 4 1000) (words_of_lines lines)) as [m1|]; [| done].
  cbn [bind_result]. destruct (build_matrix m1) as [m2|]; [| done].
  cbn [bind_result]. intros [= <-]. eauto.
Qed.

(** X8: when the endpoint answers 503. With no model registered, which
    is the state before start-up and after shutdown, every request is
    refused with status 503 and nothing is drawn; once start-up has
    succeeded, no request is ever refused: whatever comes back is a
    sentence body. *)
Theorem generate_text_availability :
  (forall fuel ml_models req g,
     ml_models !! "shakespeare"%string = None ->
     Main.generate_text fuel ml_models req g =
       Ok (Some (Main.HTTPException 503 "Model is not ready"), g)) /\
  (forall fuel ml_models req g,
     Main.generate_text fuel (Main.lifespan_shutdown ml_models) req g =
       Ok (Some (Main.HTTPException 503 "Model is not ready"), g)) /\
  (forall lines ml_models ml_models' fuel req g r g',
     Main.lifespan_startup lines ml_models = Ok ml_models' ->
     Main.generate_text fuel ml_models' req g = Ok (Some r, g') ->
     exists s, r = Main.Sentence s).
Proof.
  split_and!.
  - intros fuel ml_models req g H. unfold Main.generate_text. by rewrite H.
  - intros fuel ml_models req g. reflexivity.
  - intros lines ml_models ml_models' fuel req g r g'
      (model & _ & ->)%lifespan_startup_inv.
    unfold Main.generate_text. rewrite lookup_insert_eq. unfold bind.
    destruct (generate_sentence fuel model (lower (Main.start_word req)) g)
      as [[[s|] g1]|]; cbn; [| done | done].
    intros [= <- _]. eauto.
Qed.

Lemma generate_text_availability_witness :
  Main.generate_text 51 ∅ (Main.mk_request "romeo") zero_rng =
    Ok (Some (Main.HTTPException 503 "Model is not ready"), zero_rng).
Proof.
  destruct generate_text_availability as [H _]. apply H. reflexivity.
Defined.



(** * From the text to the words *)

(** ** [split_punct] *)








(** ** [split] *)






Lemma append_nonempty (s : string) (c : ascii) :
  String.append s (String c EmptyString) <> EmptyString.
Proof. by destruct s. Qed.





(** ** Putting a sentence back through the tokenizer *)








(** ** What the cleaning loop leaves *)














(** ** The tokens of a model loaded from a text *)





(** ** Stage directions *)

Lemma remove_spans_chars (p : ascii -> bool) (inside : bool) (s : string) :
  str_any p s = false -> str_any p (remove_spans inside s) = false.
Proof.
  revert inside. induction s as [|c s IH]; intros inside; [done |].
  cbn [str_any remove_spans]. intros [Hc Hs]%orb_false_elim.
  destruct inside.
  - destruct (Ascii.eqb c "]"); by apply IH.
  - destruct (Ascii.eqb c "[" && _); [by apply IH |].
    cbn [str_any]. by rewrite Hc, IH.
Qed.

Lemma after_close_none (s : string) :
  str_any (Ascii.eqb "010") s = false -> after_close s = None ->
  str_any (Ascii.eqb "]") s = false.
Proof.
  induction s as [|c s IH]; [done |]. cbn [str_any after_close].
  intros [Hc Hs]%orb_false_elim.
  rewrite (Ascii.eqb_sym c "]"), (Ascii.eqb_sym c "010"), Hc.
  destruct (Ascii.eqb "]" c); [done |]. intros H. cbn [orb]. by apply IH.
Qed.

Lemma remove_spans_span_free (inside : bool) (s : string) :
  str_any (Ascii.eqb "010") s = false -> span_free (remove_spans inside s) = true.
Proof.
  revert inside. induction s as [|c s IH]; intros inside; [done |].
  cbn [str_any remove_spans]. intros [Hc Hs]%orb_false_elim.
  destruct inside.
  - destruct (Ascii.eqb c "]"); by apply IH.
  - destruct (Ascii.eqb c "[") eqn:Hopen; cbn [andb].
    + destruct (after_close s) as [r|] eqn:Hclose.
      * rewrite bool_decide_eq_true_2 by eauto. by apply IH.
      * rewrite bool_decide_eq_false_2 by (by intros [? ?]).
        cbn [span_free]. rewrite Hopen, IH by done.
        rewrite remove_spans_chars; [done |]. by apply after_close_none.
    + cbn [span_free]. by rewrite Hopen, IH.
Qed.

Lemma remove_spans_no_open (s : string) :
  str_any (Ascii.eqb "[") s = false -> remove_spans false s = s.
Proof.
  induction s as [|c s IH]; [done |]. cbn [str_any remove_spans].
  intros [Hc Hs]%orb_false_elim. rewrite (Ascii.eqb_sym c "["), Hc. cbn [andb].
  by rewrite IH.
Qed.

(** X15: what the removal of stage directions leaves. In a text
    without newline no bracketed span survives: no "]" comes after a "["
    in the result; no character is added (a character absent from the
    text is absent from the result); and a text without "[" is returned
    unchanged. *)
Theorem remove_stage_directions_span_free (raw : string) :
  (str_any (Ascii.eqb "010") raw = false ->
     span_free (remove_stage_directions raw) = true) /\
  (forall c, str_any (Ascii.eqb c) raw = false ->
     str_any (Ascii.eqb c) (remove_stage_directions raw) = false) /\
  (str_any (Ascii.eqb "[") raw = false -> remove_stage_directions raw = raw).
Proof.
  unfold remove_stage_directions. split_and!.
  - apply remove_spans_span_free.
  - intros c. apply remove_spans_chars.
  - apply remove_spans_no_open.
Qed.

Lemma remove_stage_directions_span_free_witness :
  span_free (remove_stage_directions "Enter [Aside] Romeo [and [others]] here [") = true /\
  remove_stage_directions "But soft! what light" = "But soft! what light"%string.
Proof.
  destruct (remove_stage_directions_span_free "Enter [Aside] Romeo [and [others]] here [")
    as (H1 & _ & _).
  destruct (remove_stage_directions_span_free "But soft! what light") as (_ & _ & H3).
  split; [apply H1; reflexivity | apply H3; reflexivity].
Defined.

Example nested_brackets_leave_a_bracket :
  remove_stage_directions "a [b [c] d] e" = "a  d] e"%string.
Proof. reflexivity. Qed.

(** ** The lines that are read *)

Lemma py_slice_body {A} (a b : Z) (pre body post : list A) :
  Z.of_nat (length pre) = a ->
  (Z.of_nat (length pre + length body) = b \/
   (post = [] /\ (Z.of_nat (length pre + length body) <= b)%Z)) ->
  py_slice a b (pre ++ body ++ post) = body.
Proof.
  intros Ha Hb. unfold py_slice. rewrite !length_app.
  assert (slice_bound (length pre + (length body + length post)) a = length pre) as ->.
  { unfold slice_bound. destruct (Z.ltb_spec a 0); lia. }
  assert (slice_bound (length pre + (length body + length post)) b
          = length pre + length body) as ->.
  { unfold slice_bound. destruct Hb as [Hb|[-> Hb]]; simpl;
      destruct (Z.ltb_spec b 0); lia. }
  rewrite drop_app_length.
  replace (length pre + length body - length pre) with (length body) by lia.
  by rewrite take_app_length.
Qed.

Lemma py_slice_short {A} (a b : Z) (l : list A) :
  (0 <= a)%Z -> (Z.of_nat (length l) <= a)%Z -> py_slice a b l = [].
Proof.
  intros Ha Hl. unfold py_slice.
  assert (slice_bound (length l) a = length l) as ->.
  { unfold slice_bound. destruct (Z.ltb_spec a 0); lia. }
  by rewrite drop_all, take_nil.
Qed.

(** X16: only the lines 83 to 196042 are read. The first 83 lines can be
    replaced by any other 83 lines, and whatever follows line 196042 by
    anything else, without changing the text or the words; the text is the
    stripped lines of that range joined by single spaces. *)
Theorem lines_outside_range_ignored (pre pre' body post post' : list string) :
  Z.of_nat (length pre) = start_line ->
  Z.of_nat (length pre') = start_line ->
  (Z.of_nat (length pre + length body) = end_line \/
   (post = [] /\ post' = [] /\ (Z.of_nat (length pre + length body) <= end_line)%Z)) ->
  raw_text (pre ++ body ++ post) = join " " (map strip body) /\
  raw_text (pre ++ body ++ post) = raw_text (pre' ++ body ++ post') /\
  words_of_lines (pre ++ body ++ post) = words_of_lines (pre' ++ body ++ post').
Proof.
  intros Hpre Hpre' Hb.
  assert (raw_text (pre ++ body ++ post) = join " " (map strip body)) as E1.
  { unfold raw_text. rewrite (py_slice_body _ _ pre body post); [done | done |].
    destruct Hb as [?|(? & _ & ?)]; [by left | by right]. }
  assert (raw_text (pre' ++ body ++ post') = join " " (map strip body)) as E2.
  { unfold raw_text. rewrite (py_slice_body _ _ pre' body post'); [done | done |].
    destruct Hb as [?|(_ & ? & ?)]; [left | right; split; [done |]]; lia. }
  split; [done |]. split; [by rewrite E1, E2 |].
  unfold words_of_lines. by rewrite E1, E2.
Qed.

Lemma lines_outside_range_ignored_witness :
  words_of_lines (repeat "header"%string 83 ++ ["Romeo is here."%string] ++ []) =
  words_of_lines (repeat "licence"%string 83 ++ ["Romeo is here."%string] ++ []).
Proof.
  apply (lines_outside_range_ignored (repeat "header"%string 83) (repeat "licence"%string 83)
           ["Romeo is here."%string] [] []).
  - reflexivity.
  - reflexivity.
  - right. split; [reflexivity |]. split; [reflexivity |]. vm_compute. discriminate.
Defined.

(** X17: a file too short for the range. With at most 83 lines nothing
    is read: there is no word, the vocabulary and the stream are empty, and
    start-up fails with [ValueError] when the table is built, whatever the
    context order and the vocabulary size. *)
Theorem short_file_fails (lines : list string)
    (ml_models : gmap string ShakespeareMarkov) :
  (Z.of_nat (length lines) <= start_line)%Z ->
  words_of_lines lines = [] /\
  (forall self, exists self',
     load_and_process_lines self lines = Ok self' /\
     vocab self' = [] /\ tokens self' = []) /\
  (forall mlag0 k, load_model mlag0 k (words_of_lines lines) = Raise ValueError) /\
  Main.lifespan_startup lines ml_models = Raise ValueError.
Proof.
  intros Hshort.
  assert (words_of_lines lines = []) as Hw.
  { unfold words_of_lines, raw_text. by rewrite py_slice_short. }
  split; [done |]. split_and!.
  - intros self. unfold load_and_process_lines, load_and_process. rewrite Hw.
    eexists. split; [reflexivity |]. cbn [vocab tokens]. split; [| done].
    unfold most_common. destruct (top_k self <=? 0)%Z; [done |].
    change (sorted_by_count (Counter (clean_words []))) with (@nil (string * nat)).
    by rewrite take_nil.
  - intros mlag0 k. rewrite Hw.
    destruct (load_model_unfold mlag0 k []) as (self1 & _ & _ & Hn & ->).
    apply build_matrix_short. rewrite Hn. simpl. lia.
  - unfold Main.lifespan_startup, load_and_process_lines. rewrite Hw.
    destruct (load_model_unfold 4 1000 []) as (self1 & H1 & _ & Hn & H2).
    rewrite H1. cbn [bind_result]. rewrite build_matrix_short; [done |].
    rewrite Hn. simpl. lia.
Qed.

Lemma short_file_fails_witness :
  Main.lifespan_startup ["Romeo is here."; "Juliet is there."]%string ∅ = Raise ValueError.
Proof.
  apply (short_file_fails ["Romeo is here."; "Juliet is there."]%string ∅).
  vm_compute. discriminate.
Defined.

(** ** Instances on the small text file *)



